(** * flat_map: a sorted-vector associative container

    Shallow embedding of [src/Flat_map/flat_map.h] (and of
    [detail::throw_out_of_range] from [src/Flat_map/flat_map.cpp]).

    The container owns a single [std::vector<std::pair<K, V>>] called
    [m_data].  The vector is modelled by its element sequence together with
    the number of allocated but unused slots, so that
    [capacity = size + unused] and [size <= capacity] holds by construction.
    Iterators are modelled by their index into the vector; [end()] is the
    index [size]. *)

From Stdlib Require Import List Arith Bool Lia Sorted Permutation PeanoNat.
Import ListNotations.

Set Implicit Arguments.

(** ** Template parameters *)

(** [Comp]: the ordering function for keys, [key_compare()(lhs, rhs)]. *)
Class Compare (K : Type) := key_compare : K -> K -> bool.

(** What the standard asks of [Comp]: a strict weak ordering. *)
Class StrictWeakOrder {K : Type} (C : Compare K) : Prop := {
  comp_irrefl : forall a, key_compare a a = false;
  comp_trans : forall a b c,
    key_compare a b = true -> key_compare b c = true -> key_compare a c = true;
  comp_negtrans : forall a b c,
    key_compare a c = true -> key_compare a b = true \/ key_compare b c = true
}.

(** Value initialisation [T()], as used by [value_type()] and [mapped_type()]. *)
Class Default (A : Type) := default_value : A.

(** The capacity [std::vector] asks for when it has to grow while holding
    [n] elements.  The library leaves the policy open; the new storage holds
    the [n] elements and the new one in any case. *)
Class GrowthPolicy := next_capacity : nat -> nat.

(** Whether copy-constructing a [value_type] from a given input element
    throws. *)
Class CopyConstruct (A : Type) := copy_throws : A -> bool.

(** ** Function objects and [std::not2]

    [std::not2(pred)] returns a [std::binary_negate<Predicate>], a class that
    names [Predicate::first_argument_type] and
    [Predicate::second_argument_type] in the signature of its call operator.
    A predicate class without these two member types has no negator: the
    expression is ill-formed and so is every function whose instantiation
    contains it.  A function object is therefore its call operator together
    with the fact whether its class declares the two argument types. *)
Record function_object (A : Type) : Type := {
  call : A -> A -> bool;
  has_argument_types : bool
}.

(** What instantiating a template (or a member of a class template) gives:
    a function, or no function when its body is ill-formed. *)
Inductive instantiation (F : Type) : Type :=
| Instantiated (f : F)
| IllFormed.

Arguments Instantiated {F} f.
Arguments IllFormed {F}.

(** ** Standard algorithms used by the container

    They are library code; each is modelled after what the standard says it
    returns. *)
Section Algorithms.

Context {A : Type}.
Variable cmp : A -> A -> bool.

(** The call operator of [std::binary_negate<Predicate>]: the negation of
    the predicate it wraps. *)
Definition binary_negate (a b : A) : bool := negb (cmp a b).

(** Insertion of [x] behind every element that is not greater than it. *)
Fixpoint insert_after_equivalent (x : A) (l : list A) : list A :=
  match l with
  | [] => [x]
  | y :: l' =>
      if cmp x y then x :: y :: l' else y :: insert_after_equivalent x l'
  end.

(** [std::stable_sort]: sorts and keeps equivalent elements in their
    original order. *)
Definition std_stable_sort (l : list A) : list A :=
  fold_left (fun acc x => insert_after_equivalent x acc) l [].

(** [std::inplace_merge]: merges two consecutive sorted ranges; of two
    equivalent elements the one from the first range comes first. *)
Fixpoint std_inplace_merge (l1 l2 : list A) : list A :=
  let fix merge_into (l2 : list A) : list A :=
    match l1, l2 with
    | [], _ => l2
    | _, [] => l1
    | a :: l1', b :: l2' =>
        if cmp b a then b :: merge_into l2' else a :: std_inplace_merge l1' l2
    end
  in merge_into l2.

Variable pred : A -> A -> bool.

(** The scan of [std::unique]: [prev] is the last element kept. *)
Fixpoint unique_from (prev : A) (l : list A) : list A :=
  match l with
  | [] => []
  | x :: l' =>
      if pred prev x then unique_from prev l' else x :: unique_from x l'
  end.

(** [std::unique(first, last, pred)] followed by erasing the tail: keeps the
    first element of every run of elements related by [pred]. *)
Definition std_unique (l : list A) : list A :=
  match l with
  | [] => []
  | x :: l' => x :: unique_from x l'
  end.

End Algorithms.

(** [std::not2(f)]: the negator of [f], for a class with the argument
    types. *)
Definition std_not2 {A : Type} (f : function_object A)
  : option (A -> A -> bool) :=
  if has_argument_types f then Some (binary_negate (call f)) else None.

(** ** The container *)
Section FlatMap.

Context {K V : Type} {C : Compare K} {G : GrowthPolicy}.

Definition value_type : Type := K * V.

(** [value_compare::operator()] *)
Definition value_compare (lhs rhs : value_type) : bool :=
  key_compare (fst lhs) (fst rhs).

(** Two keys are equivalent when neither is ordered before the other. *)
Definition equivalent (a b : K) : bool :=
  negb (key_compare a b) && negb (key_compare b a).

(** [m_data], with the slots that are allocated and not in use. *)
Record flat_map : Type := {
  m_data : list value_type;
  m_unused : nat
}.

Definition size (m : flat_map) : nat := length (m_data m).
Definition capacity (m : flat_map) : nat := size m + m_unused m.
Definition empty (m : flat_map) : bool := size m =? 0.

(** Iterators *)
Definition begin_ (m : flat_map) : nat := 0.
Definition end_ (m : flat_map) : nat := size m.

(** *** Vector primitives *)

(** [m_data.emplace(pos, x)]: reallocates when no slot is free. *)
Definition vector_emplace (pos : nat) (x : value_type) (m : flat_map)
  : flat_map :=
  {| m_data := firstn pos (m_data m) ++ x :: skipn pos (m_data m);
     m_unused := match m_unused m with
                 | 0 => next_capacity (size m) - S (size m)
                 | S free => free
                 end |}.

(** [m_data.emplace_back(x)] *)
Definition vector_emplace_back (x : value_type) (m : flat_map) : flat_map :=
  {| m_data := m_data m ++ [x];
     m_unused := match m_unused m with
                 | 0 => next_capacity (size m) - S (size m)
                 | S free => free
                 end |}.

(** [m_data.pop_back()] *)
Definition vector_pop_back (m : flat_map) : flat_map :=
  {| m_data := removelast (m_data m); m_unused := S (m_unused m) |}.

(** [m_data.erase(first, last)] *)
Definition vector_erase_range (first last : nat) (m : flat_map) : flat_map :=
  {| m_data := firstn first (m_data m) ++ skipn last (m_data m);
     m_unused := m_unused m + (last - first) |}.

(** [m_data.erase(pos)] *)
Definition vector_erase (pos : nat) (m : flat_map) : flat_map :=
  vector_erase_range pos (S pos) m.

(** *** Lookup *)

(** [std::lower_bound(begin, end, key, KeyOrValueCompare())]: the furthest
    position such that every element before it is ordered before [key]. *)
Fixpoint std_lower_bound (l : list value_type) (key : K) : nat :=
  match l with
  | [] => 0
  | e :: l' =>
      if key_compare (fst e) key then S (std_lower_bound l' key) else 0
  end.

(** [std::upper_bound]: the furthest position such that [key] is ordered
    before no element in front of it. *)
Fixpoint std_upper_bound (l : list value_type) (key : K) : nat :=
  match l with
  | [] => 0
  | e :: l' =>
      if key_compare key (fst e) then 0 else S (std_upper_bound l' key)
  end.

(** The bisection by which the libraries compute [std::lower_bound]: the
    range [first, first + len) is halved until it is empty. *)
Fixpoint bisect (fuel : nat) (l : list value_type) (key : K)
  (first len : nat) : nat :=
  match fuel with
  | 0 => first
  | S fuel' =>
      if len =? 0 then first
      else
        let half := len / 2 in
        let middle := first + half in
        match nth_error l middle with
        | Some e =>
            if key_compare (fst e) key
            then bisect fuel' l key (middle + 1) (len - half - 1)
            else bisect fuel' l key first half
        | None => first
        end
  end.

Definition std_lower_bound_bisect (l : list value_type) (key : K) : nat :=
  bisect (length l) l key 0 (length l).

Definition lower_bound (key : K) (m : flat_map) : nat :=
  std_lower_bound (m_data m) key.

Definition upper_bound (key : K) (m : flat_map) : nat :=
  std_upper_bound (m_data m) key.

(** [binary_find].  A position returned by [std::lower_bound] is at most
    [end], so the lookup fails exactly when it is [end]. *)
Definition binary_find (l : list value_type) (key : K) : nat :=
  let lower_bound := std_lower_bound l key in
  match nth_error l lower_bound with
  | None => length l
  | Some e => if key_compare key (fst e) then length l else lower_bound
  end.

Definition find (key : K) (m : flat_map) : nat :=
  binary_find (m_data m) key.

(** *** Single-element mutation *)

(** [emplace(first, args...)]: [x] is the pair built from the arguments;
    the comparisons only look at its key. *)
Definition emplace (x : value_type) (m : flat_map)
  : flat_map * (nat * bool) :=
  let lower_bound := std_lower_bound (m_data m) (fst x) in
  match nth_error (m_data m) lower_bound with
  | None => (vector_emplace lower_bound x m, (lower_bound, true))
  | Some e =>
      if key_compare (fst x) (fst e)
      then (vector_emplace lower_bound x m, (lower_bound, true))
      else (m, (lower_bound, false))
  end.

(** [emplace()] *)
Definition emplace_default `{Default K} `{Default V} (m : flat_map)
  : flat_map * (nat * bool) :=
  emplace (default_value, default_value) m.

(** [insert(const value_type&)] and [insert(value_type&&)] *)
Definition insert (value : value_type) (m : flat_map)
  : flat_map * (nat * bool) :=
  emplace value m.

(** [operator[]]: the reference returned is the position of the entry whose
    mapped value it designates. *)
Definition subscript `{Default V} (key : K) (m : flat_map)
  : flat_map * nat :=
  let lower := lower_bound key m in
  match nth_error (m_data m) lower with
  | None => (vector_emplace lower (key, default_value) m, lower)
  | Some e =>
      if key_compare key (fst e)
      then (vector_emplace lower (key, default_value) m, lower)
      else (m, lower)
  end.

(** [emplace_hint(hint, first, args...)].  A hint outside [begin, end] is
    not an iterator of the container: no result. *)
Definition emplace_hint (hint : nat) (x : value_type) (m : flat_map)
  : option (flat_map * nat) :=
  if size m <? hint then None
  else
    let fallback := let '(m', (it, _)) := emplace x m in Some (m', it) in
    let before_hint :=
      match hint with
      | 0 => Some (vector_emplace hint x m, hint)
      | S prev =>
          match nth_error (m_data m) prev with
          | Some p =>
              if key_compare (fst p) (fst x)
              then Some (vector_emplace hint x m, hint)
              else fallback
          | None => None
          end
      end in
    match nth_error (m_data m) hint with
    | None => before_hint
    | Some h =>
        if key_compare (fst x) (fst h) then before_hint
        else if negb (key_compare (fst h) (fst x)) then Some (m, hint)
        else fallback
    end.

(** [insert(hint, value)] *)
Definition insert_hint (hint : nat) (value : value_type) (m : flat_map)
  : option (flat_map * nat) :=
  emplace_hint hint value m.

(** [erase(iterator)]: [it] has to designate an entry. *)
Definition erase (it : nat) (m : flat_map) : option (flat_map * nat) :=
  if it <? size m then Some (vector_erase it m, it) else None.

(** [erase(const key_type&)] *)
Definition erase_key (key : K) (m : flat_map) : option (flat_map * nat) :=
  let found := find key m in
  if found =? end_ m then Some (m, 0)
  else match erase found m with
       | Some (m', _) => Some (m', 1)
       | None => None
       end.

(** [erase(first, last)]: [first, last) has to be a range of the
    container. *)
Definition erase_range (first last : nat) (m : flat_map)
  : option (flat_map * nat) :=
  if (first <=? last) && (last <=? size m)
  then Some (vector_erase_range first last m, first)
  else None.

(** [clear()] *)
Definition clear (m : flat_map) : flat_map :=
  {| m_data := []; m_unused := capacity m |}.

(** *** The statements of [insert(begin, end)], when no construction throws *)

(** Lines 384-386: single-element [emplace] while the vector is full. *)
Fixpoint emplace_while_full (m : flat_map) (input : list value_type)
  : flat_map * list value_type :=
  match input with
  | [] => (m, [])
  | x :: rest =>
      if size m =? capacity m
      then emplace_while_full (fst (emplace x m)) rest
      else (m, input)
  end.

(** Lines 394-396: append while the counter [i], started at [capacity()],
    is above [size_before]. *)
Fixpoint append_chunk (i size_before : nat) (m : flat_map)
  (input : list value_type) : flat_map * list value_type :=
  match input with
  | [] => (m, [])
  | x :: rest =>
      if size_before <? i
      then append_chunk (i - 1) size_before (vector_emplace_back x m) rest
      else (m, input)
  end.

(** Lines 33-39: [struct value_compare] has one call operator and declares
    neither [first_argument_type] nor [second_argument_type]. *)
Definition value_compare_object : function_object value_type :=
  {| call := value_compare; has_argument_types := false |}.

(** Lines 405-410: sort the appended tail, merge it with the old entries,
    drop every entry related to its predecessor by [negated], the value of
    the expression [std::not2(comp)] of line 410. *)
Definition sort_merge_unique (negated : value_type -> value_type -> bool)
  (size_before : nat) (m : flat_map) : flat_map :=
  let mid := size_before in
  let tail := std_stable_sort value_compare (skipn mid (m_data m)) in
  let merged := std_inplace_merge value_compare (firstn mid (m_data m)) tail in
  let kept := std_unique negated merged in
  {| m_data := kept;
     m_unused := m_unused m + (length merged - length kept) |}.

(** Lines 412-417: [emplace] input elements until one is inserted. *)
Fixpoint emplace_until_inserted (m : flat_map) (input : list value_type)
  : flat_map * list value_type :=
  match input with
  | [] => (m, [])
  | x :: rest =>
      let '(m', (_, inserted)) := emplace x m in
      if inserted then (m', rest) else emplace_until_inserted m' rest
  end.

(** Lines 411-418, entered with the container as line 410 left it: when
    the size is the one before the batch, [emplace] until one element is
    inserted. *)
Definition stuck_batch_fallback (size_before : nat) (m : flat_map)
  (input : list value_type) : flat_map * list value_type :=
  if size m =? size_before
  then emplace_until_inserted m input
  else (m, input).

(** Lines 391-418, entered with some input left and a free slot. *)
Definition insert_batch (negated : value_type -> value_type -> bool)
  (m : flat_map) (input : list value_type) : flat_map * list value_type :=
  let size_before := size m in
  let '(m2, input2) := append_chunk (capacity m) size_before m input in
  let m3 := sort_merge_unique negated size_before m2 in
  stuck_batch_fallback size_before m3 input2.

(** The body of [insert(begin, end)], lines 384-419; [input] is the range
    [begin, end).  Every unit of [fuel] pays for one recursive call of
    line 419. *)
Fixpoint insert_range_fuel (negated : value_type -> value_type -> bool)
  (fuel : nat) (m : flat_map) (input : list value_type) : option flat_map :=
  let '(m1, input1) := emplace_while_full m input in
  match input1 with
  | [] => Some m1
  | _ :: _ =>
      match fuel with
      | 0 => None
      | S fuel' =>
          let '(m4, input4) := insert_batch negated m1 input1 in
          insert_range_fuel negated fuel' m4 input4
      end
  end.

(** [insert(begin, end)], lines 381-420, as the member template that it is:
    its body applies [std::not2] to a [value_compare], so it has an
    instantiation only if that expression has a value. *)
Definition insert_range
  : instantiation (flat_map -> list value_type -> option flat_map) :=
  match std_not2 value_compare_object with
  | Some negated =>
      Instantiated
        (fun m input => insert_range_fuel negated (length input) m input)
  | None => IllFormed
  end.

(** A call through an instantiation; there is no result where there is no
    function. *)
Definition call_instance {X Y Z : Type}
  (f : instantiation (X -> Y -> option Z)) (x : X) (y : Y) : option Z :=
  match f with
  | Instantiated g => g x y
  | IllFormed => None
  end.

(** The fallback of lines 411-418, entered with the size of before the
    batch, handles exactly one element. *)
Definition stuck_batch_takes_one (size_before : nat) (m : flat_map)
  (input : list value_type) : Prop :=
  size m = size_before ->
  exists x rest,
    input = x :: rest
    /\ stuck_batch_fallback size_before m input = (fst (emplace x m), rest).

End FlatMap.

Arguments flat_map K V : clear implicits.
Arguments value_type K V : clear implicits.

(** ** Traversal

    A forward iterator is an index.  A [std::reverse_iterator] wraps the
    forward iterator [base]; dereferencing it reads the element in front of
    [base], incrementing it moves [base] one element back. *)
Section Traversal.

Context {K V : Type}.

Record reverse_iterator : Type := { base : nat }.

(** [std::rbegin(m_data)], [std::crbegin(m_data)] *)
Definition std_rbegin (l : list (value_type K V)) : reverse_iterator :=
  {| base := length l |}.

(** [std::rend(m_data)], [std::crend(m_data)] *)
Definition std_rend (l : list (value_type K V)) : reverse_iterator :=
  {| base := 0 |}.

(** [begin() const], [end() const], [cbegin()], [cend()] *)
Definition begin_const (m : flat_map K V) : nat := 0.
Definition end_const (m : flat_map K V) : nat := length (m_data m).
Definition cbegin (m : flat_map K V) : nat := 0.
Definition cend (m : flat_map K V) : nat := length (m_data m).

(** [rbegin()], [rend()] *)
Definition rbegin (m : flat_map K V) : reverse_iterator :=
  std_rbegin (m_data m).
Definition rend (m : flat_map K V) : reverse_iterator :=
  std_rend (m_data m).

(** [rbegin() const], [rend() const] (lines 167-180) *)
Definition rbegin_const (m : flat_map K V) : reverse_iterator :=
  std_rbegin (m_data m).
Definition rend_const (m : flat_map K V) : reverse_iterator :=
  std_rbegin (m_data m).

(** [crbegin()], [crend()] *)
Definition crbegin (m : flat_map K V) : reverse_iterator :=
  std_rbegin (m_data m).
Definition crend (m : flat_map K V) : reverse_iterator :=
  std_rend (m_data m).

(** The loop [for (it = first; it != last; ++it)] that visits the element
    under [it]: the entries visited, in order.  No result when the loop
    leaves the container or outlives [fuel] iterations. *)
Fixpoint traverse (fuel : nat) (m : flat_map K V) (it last : nat)
  : option (list (value_type K V)) :=
  if it =? last then Some []
  else match fuel with
       | 0 => None
       | S fuel' =>
           match nth_error (m_data m) it with
           | None => None
           | Some e => option_map (cons e) (traverse fuel' m (S it) last)
           end
       end.

(** The same loop over reverse iterators. *)
Fixpoint traverse_reverse (fuel : nat) (m : flat_map K V)
  (it last : reverse_iterator) : option (list (value_type K V)) :=
  if base it =? base last then Some []
  else match fuel with
       | 0 => None
       | S fuel' =>
           match base it with
           | 0 => None
           | S current =>
               match nth_error (m_data m) current with
               | None => None
               | Some e =>
                   option_map (cons e)
                     (traverse_reverse fuel' m {| base := current |} last)
               end
           end
       end.

End Traversal.

(** ** Operations that can throw

    An exception leaves the function with the container in whatever state the
    code has brought it to; computations are state transformers whose result
    is either a value or an exception, each with the state reached. *)
Section Throwing.

Context {K V : Type} {C : Compare K} {G : GrowthPolicy}
        {T : CopyConstruct (value_type K V)}.

Inductive exn : Type :=
| out_of_range
| construction_error.

Inductive outcome (A : Type) : Type :=
| Returns (a : A) (m : flat_map K V)
| Throws (e : exn) (m : flat_map K V).

Definition M (A : Type) : Type := flat_map K V -> outcome A.

Definition ret {A : Type} (a : A) : M A := fun m => Returns a m.

Definition bind {A B : Type} (c : M A) (k : A -> M B) : M B :=
  fun m =>
    match c m with
    | Returns a m' => k a m'
    | Throws _ e m' => Throws _ e m'
    end.

Definition throw {A : Type} (e : exn) : M A := fun m => Throws _ e m.

(** [try { body } catch (...) { handler }] *)
Definition try_catch {A : Type} (body : M A) (handler : exn -> M A) : M A :=
  fun m =>
    match body m with
    | Returns a m' => Returns a m'
    | Throws _ e m' => handler e m'
    end.

Definition gets {A : Type} (f : flat_map K V -> A) : M A :=
  fun m => Returns (f m) m.

Definition modify (f : flat_map K V -> flat_map K V) : M unit :=
  fun m => Returns tt (f m).

Notation "x <- c ;; k" := (bind c (fun x => k))
  (at level 61, c at next level, right associativity).
Notation "c ;; k" := (bind c (fun _ => k))
  (at level 61, right associativity).

(** [detail::throw_out_of_range] *)
Definition throw_out_of_range {A : Type} : M A := throw out_of_range.

(** [at(key)]: the reference returned is the position of the entry. *)
Definition at_ (key : K) : M nat :=
  found <- gets (find key) ;;
  last <- gets end_ ;;
  if found =? last then throw_out_of_range else ret found.

(** [m_data.emplace(pos, x)] and [m_data.emplace_back(x)]: the vector is
    untouched when the construction of the new element throws. *)
Definition vector_emplace_exn (pos : nat) (x : value_type K V) : M unit :=
  if copy_throws x then throw construction_error
  else modify (vector_emplace pos x).

Definition vector_emplace_back_exn (x : value_type K V) : M unit :=
  if copy_throws x then throw construction_error
  else modify (vector_emplace_back x).

(** [emplace(first, args...)]: nothing is constructed when the key is
    already there. *)
Definition emplace_exn (x : value_type K V) : M (nat * bool) :=
  lower_bound <- gets (lower_bound (fst x)) ;;
  at_lower <- gets (fun m => nth_error (m_data m) lower_bound) ;;
  match at_lower with
  | None => vector_emplace_exn lower_bound x ;; ret (lower_bound, true)
  | Some e =>
      if key_compare (fst x) (fst e)
      then vector_emplace_exn lower_bound x ;; ret (lower_bound, true)
      else ret (lower_bound, false)
  end.

(** Lines 384-386 *)
Fixpoint emplace_while_full_exn (input : list (value_type K V))
  : M (list (value_type K V)) :=
  match input with
  | [] => ret []
  | x :: rest =>
      full <- gets (fun m => size m =? capacity m) ;;
      if full
      then emplace_exn x ;; emplace_while_full_exn rest
      else ret input
  end.

(** Lines 394-396, the body of the [try] block *)
Fixpoint append_chunk_exn (i size_before : nat)
  (input : list (value_type K V)) : M (list (value_type K V)) :=
  match input with
  | [] => ret []
  | x :: rest =>
      if size_before <? i
      then vector_emplace_back_exn x ;;
           append_chunk_exn (i - 1) size_before rest
      else ret input
  end.

(** Lines 400-402, the loop of the [catch] block *)
Fixpoint pop_back_loop (i size_before : nat) : M unit :=
  match i with
  | 0 => ret tt
  | S i' =>
      if size_before <? i
      then modify vector_pop_back ;; pop_back_loop i' size_before
      else ret tt
  end.

(** Lines 412-417 *)
Fixpoint emplace_until_inserted_exn (input : list (value_type K V))
  : M (list (value_type K V)) :=
  match input with
  | [] => ret []
  | x :: rest =>
      r <- emplace_exn x ;;
      if snd r then ret rest else emplace_until_inserted_exn rest
  end.

(** Lines 391-404 *)
Definition guarded_append (size_before : nat)
  (input : list (value_type K V)) : M (list (value_type K V)) :=
  i <- gets capacity ;;
  try_catch (append_chunk_exn i size_before input)
    (fun e =>
       i <- gets size ;;
       pop_back_loop i size_before ;;
       throw e).

(** Lines 384-404: the call until it returns at line 388 (no result value)
    or reaches line 405 with [size_before] and the input that is left. *)
Definition insert_until_merge_exn (input : list (value_type K V))
  : M (option (nat * list (value_type K V))) :=
  input1 <- emplace_while_full_exn input ;;
  match input1 with
  | [] => ret None
  | _ :: _ =>
      size_before <- gets size ;;
      input2 <- guarded_append size_before input1 ;;
      ret (Some (size_before, input2))
  end.

(** The container as the caller finds it afterwards. *)
Definition final_state {A : Type} (o : outcome A) : flat_map K V :=
  match o with
  | Returns _ m => m
  | Throws _ _ m => m
  end.

(** No element of the input throws when it is copied. *)
Definition never_throws (input : list (value_type K V)) : Prop :=
  Forall (fun x => copy_throws x = false) input.


End Throwing.

Arguments outcome K V A : clear implicits.

(** ** Specification vocabulary *)
Section Vocabulary.

Context {A : Type}.
Variable cmp : A -> A -> bool.

(** No element is ordered before an earlier one. *)
Definition ascending (l : list A) : Prop :=
  StronglySorted (fun a b => cmp b a = false) l.

(** Every element is ordered before all later ones. *)
Definition strictly_ascending (l : list A) : Prop :=
  StronglySorted (fun a b => cmp a b = true) l.

(** Insertion into a strictly ascending list that keeps the element
    already there when an equivalent one is offered. *)
Fixpoint ordered_insert (x : A) (l : list A) : list A :=
  match l with
  | [] => [x]
  | e :: l' =>
      if cmp e x then e :: ordered_insert x l'
      else if cmp x e then x :: e :: l'
      else e :: l'
  end.

End Vocabulary.

Section Invariant.

Context {K V : Type} {C : Compare K} {G : GrowthPolicy}.

(** Invariant I1: adjacent entries are strictly ascending by key. *)
Definition I1 (m : flat_map K V) : Prop :=
  Sorted (fun a b => value_compare a b = true) (m_data m).

(** No two entries at different positions have equivalent keys. *)
Definition unique_keys (m : flat_map K V) : Prop :=
  forall i j a b,
    nth_error (m_data m) i = Some a ->
    nth_error (m_data m) j = Some b ->
    equivalent (fst a) (fst b) = true -> i = j.

(** Some entry has a key equivalent to [k]. *)
Definition has_key (k : K) (m : flat_map K V) : Prop :=
  exists e, In e (m_data m) /\ equivalent (fst e) k = true.

(** One [emplace] per element, in input order. *)
Definition emplace_each (m : flat_map K V) (input : list (value_type K V))
  : flat_map K V :=
  fold_left (fun acc x => fst (emplace x acc)) input m.


(** The public mutations. *)
Inductive mutation : Type :=
| Subscript (key : K)
| Insert (value : value_type K V)
| InsertHint (hint : nat) (value : value_type K V)
| InsertRange (input : list (value_type K V))
| Emplace (x : value_type K V)
| EmplaceDefault
| EmplaceHint (hint : nat) (x : value_type K V)
| EmplaceHintDefault (hint : nat)
| Erase (it : nat)
| EraseKey (key : K)
| EraseRange (first last : nat)
| Clear.

(** What the caller owes for the iterators it passes. *)
Definition valid_call (op : mutation) (m : flat_map K V) : Prop :=
  match op with
  | InsertHint hint _ | EmplaceHint hint _ | EmplaceHintDefault hint =>
      hint <= size m
  | Erase it => it < size m
  | EraseRange first last => first <= last <= size m
  | _ => True
  end.

Definition run `{Default K} `{Default V} (op : mutation) (m : flat_map K V)
  : option (flat_map K V) :=
  match op with
  | Subscript key => Some (fst (subscript key m))
  | Insert value => Some (fst (insert value m))
  | InsertHint hint value => option_map fst (insert_hint hint value m)
  | InsertRange input => call_instance insert_range m input
  | Emplace x => Some (fst (emplace x m))
  | EmplaceDefault => Some (fst (emplace_default m))
  | EmplaceHint hint x => option_map fst (emplace_hint hint x m)
  | EmplaceHintDefault hint =>
      option_map fst (emplace_hint hint (default_value, default_value) m)
  | Erase it => option_map fst (erase it m)
  | EraseKey key => option_map fst (erase_key key m)
  | EraseRange first last => option_map fst (erase_range first last m)
  | Clear => Some (clear m)
  end.

End Invariant.

Arguments mutation K V : clear implicits.

(** ** An instance: [flat_map<unsigned, unsigned>] with [std::less] *)
Module Example.

#[export] Instance nat_less : Compare nat := Nat.ltb.

(** The growth policy of libstdc++: the size doubles. *)
#[export] Instance doubling : GrowthPolicy := fun n => n + Nat.max n 1.

#[export] Instance nat_default : Default nat := 0.

(** An element type whose copy constructor throws on the value 666. *)
#[export] Instance poison : CopyConstruct (value_type nat nat) :=
  fun x => snd x =? 666.

Definition fresh : flat_map nat nat := {| m_data := []; m_unused := 0 |}.

Definition one_entry : flat_map nat nat :=
  {| m_data := [(1, 10)]; m_unused := 1 |}.

Definition three_entries : flat_map nat nat :=
  {| m_data := [(1, 10); (3, 30); (5, 50)]; m_unused := 2 |}.

End Example.

(** ** The rest of the interface *)

(** [operator==] and [operator<] of the key and of the mapped type, which the
    comparison of two vectors of pairs falls back on. *)
Class Equal (A : Type) := equal : A -> A -> bool.
Class Less (A : Type) := less : A -> A -> bool.

(** What the comparisons of a regular, totally ordered type satisfy. *)
Class LawfulEqual {A : Type} (E : Equal A) : Prop :=
  equal_iff : forall a b, equal a b = true <-> a = b.

Class StrictTotalOrder {A : Type} (L : Less A) : Prop := {
  less_irrefl : forall a, less a a = false;
  less_trans : forall a b c,
    less a b = true -> less b c = true -> less a c = true;
  less_total : forall a b, less a b = false -> less b a = false -> a = b
}.

(** The capacity [std::vector::reserve] asks for when it is told to make room
    for [n] elements; the new storage holds [n] elements in any case. *)
Class ReservePolicy := reserved_capacity : nat -> nat.

Section Interface.

Context {K V : Type} {C : Compare K} {G : GrowthPolicy}.

(** [flat_map()]: an empty vector that owns no storage. *)
Definition flat_map_default : flat_map K V :=
  {| m_data := []; m_unused := 0 |}.

(** [flat_map(It begin, It end)], lines 67-71: its body is the call
    [insert(begin, end)] on the empty container. *)
Definition flat_map_range
  : instantiation (list (value_type K V) -> option (flat_map K V)) :=
  match insert_range with
  | Instantiated insert_ =>
      Instantiated (fun input => insert_ flat_map_default input)
  | IllFormed => IllFormed
  end.

(** [flat_map(std::initializer_list<value_type>)], lines 78-81: delegates
    to the range constructor. *)
Definition flat_map_init_list
  : instantiation (list (value_type K V) -> option (flat_map K V)) :=
  match flat_map_range with
  | Instantiated construct => Instantiated (fun init => construct init)
  | IllFormed => IllFormed
  end.

(** [insert(std::initializer_list<value_type>)], lines 427-430: its body is
    the call [insert(std::begin(il), std::end(il))]. *)
Definition insert_init_list
  : instantiation
      (list (value_type K V) -> flat_map K V -> option (flat_map K V)) :=
  match insert_range with
  | Instantiated insert_ => Instantiated (fun il m => insert_ m il)
  | IllFormed => IllFormed
  end.

(** [reserve(size)] *)
Definition reserve `{ReservePolicy} (n : nat) (m : flat_map K V)
  : flat_map K V :=
  if n <=? capacity m then m
  else {| m_data := m_data m;
          m_unused := Nat.max n (reserved_capacity n) - size m |}.

(** [std::equal_range]: the pair of [std::lower_bound] and
    [std::upper_bound]. *)
Definition std_equal_range (l : list (value_type K V)) (key : K) : nat * nat :=
  (std_lower_bound l key, std_upper_bound l key).

Definition equal_range (key : K) (m : flat_map K V) : nat * nat :=
  std_equal_range (m_data m) key.

(** The first entry of a sequence whose key is equivalent to [k]. *)
Definition lookup (k : K) (l : list (value_type K V))
  : option (value_type K V) :=
  List.find (fun e => equivalent (fst e) k) l.

(** [erase(it)] called [n] times with the same iterator. *)
Fixpoint erase_times (n it : nat) (m : flat_map K V) : option (flat_map K V) :=
  match n with
  | 0 => Some m
  | S n' =>
      match erase it m with
      | Some (m', _) => erase_times n' it m'
      | None => None
      end
  end.

(** [emplace_hint(end(), x)] for every element of a sequence, in order. *)
Fixpoint emplace_hint_at_end (input : list (value_type K V))
  (m : flat_map K V) : option (flat_map K V) :=
  match input with
  | [] => Some m
  | x :: rest =>
      match emplace_hint (end_ m) x m with
      | Some (m', _) => emplace_hint_at_end rest m'
      | None => None
      end
  end.

(** *** Comparison of containers *)

Context {EK : Equal K} {EV : Equal V} {LK : Less K} {LV : Less V}.

(** [operator==] and [operator<] of [std::pair]. *)
Definition pair_equal (x y : value_type K V) : bool :=
  equal (fst x) (fst y) && equal (snd x) (snd y).

Definition pair_less (x y : value_type K V) : bool :=
  less (fst x) (fst y)
  || (negb (less (fst y) (fst x)) && less (snd x) (snd y)).

(** [std::equal] over two ranges of the same length. *)
Fixpoint std_equal (l1 l2 : list (value_type K V)) : bool :=
  match l1, l2 with
  | [], [] => true
  | a :: l1', b :: l2' => pair_equal a b && std_equal l1' l2'
  | _, _ => false
  end.

(** [operator==] of [std::vector]: equal sizes and equal elements. *)
Definition vector_equal (l1 l2 : list (value_type K V)) : bool :=
  (length l1 =? length l2) && std_equal l1 l2.

(** [std::lexicographical_compare], which is [operator<] of
    [std::vector]. *)
Fixpoint std_lexicographical_compare (l1 l2 : list (value_type K V)) : bool :=
  match l1, l2 with
  | [], [] => false
  | [], _ :: _ => true
  | _ :: _, [] => false
  | a :: l1', b :: l2' =>
      if pair_less a b then true
      else if pair_less b a then false
      else std_lexicographical_compare l1' l2'
  end.

(** [operator==], [operator!=], [operator<], [operator>], [operator<=],
    [operator>=] *)
Definition operator_eq (m other : flat_map K V) : bool :=
  vector_equal (m_data m) (m_data other).

Definition operator_ne (m other : flat_map K V) : bool :=
  negb (operator_eq m other).

Definition operator_lt (m other : flat_map K V) : bool :=
  std_lexicographical_compare (m_data m) (m_data other).

Definition operator_gt (m other : flat_map K V) : bool :=
  operator_lt other m.

Definition operator_le (m other : flat_map K V) : bool :=
  negb (operator_lt other m).

Definition operator_ge (m other : flat_map K V) : bool :=
  negb (operator_lt m other).

End Interface.

(** The instance again: comparisons of [unsigned] and the [reserve] of the
    usual libraries, which allocate what they are asked for. *)
Module ExampleInterface.

#[export] Instance nat_equal : Equal nat := Nat.eqb.
#[export] Instance nat_lt : Less nat := Nat.ltb.
#[export] Instance exact_reserve : ReservePolicy := fun n => n.

End ExampleInterface.

(** * Proofs *)

(** ** The standard algorithms under a strict weak ordering *)
Section AlgorithmFacts.

Context {A : Type}.
Variable cmp : A -> A -> bool.
Hypothesis cmp_irrefl : forall a, cmp a a = false.
Hypothesis cmp_trans :
  forall a b c, cmp a b = true -> cmp b c = true -> cmp a c = true.
Hypothesis cmp_negtrans :
  forall a b c, cmp a c = true -> cmp a b = true \/ cmp b c = true.

Lemma cmp_asym a b : cmp a b = true -> cmp b a = false.
Proof.
  intros Hab. destruct (cmp b a) eqn:Hba; [|reflexivity].
  rewrite <- (cmp_irrefl a). symmetry. eauto.
Qed.

Lemma cmp_le_trans a b c :
  cmp b a = false -> cmp c b = false -> cmp c a = false.
Proof.
  intros Hab Hbc. destruct (cmp c a) eqn:Hca; [|reflexivity].
  destruct (cmp_negtrans b Hca); congruence.
Qed.

Lemma cmp_lt_le_trans a b c :
  cmp a b = true -> cmp c b = false -> cmp a c = true.
Proof.
  intros Hab Hbc. destruct (cmp_negtrans c Hab); congruence.
Qed.

Lemma cmp_le_lt_trans a b c :
  cmp b a = false -> cmp b c = true -> cmp a c = true.
Proof.
  intros Hab Hbc. destruct (cmp_negtrans a Hbc); congruence.
Qed.

Lemma strictly_ascending_ascending l :
  strictly_ascending cmp l -> ascending cmp l.
Proof.
  unfold strictly_ascending, ascending.
  induction 1 as [|a l Hl IH Ha]; constructor; auto.
  rewrite Forall_forall in *. intros b Hb. apply cmp_asym; auto.
Qed.

(** *** [insert_after_equivalent] and [std_stable_sort] *)

Lemma insert_after_equivalent_perm x l :
  Permutation (x :: l) (insert_after_equivalent cmp x l).
Proof.
  induction l as [|y l IH]; simpl; [reflexivity|].
  destruct (cmp x y); [reflexivity|].
  rewrite perm_swap. constructor. exact IH.
Qed.

Lemma insert_after_equivalent_ascending x l :
  ascending cmp l -> ascending cmp (insert_after_equivalent cmp x l).
Proof.
  unfold ascending.
  induction 1 as [|y l Hl IH Hy]; simpl.
  - repeat constructor.
  - destruct (cmp x y) eqn:Hxy.
    + constructor; [constructor; assumption|].
      constructor; [apply cmp_asym; assumption|].
      rewrite Forall_forall in *. intros z Hz.
      apply cmp_asym. eapply cmp_lt_le_trans; eauto.
    + constructor; [assumption|].
      rewrite Forall_forall in *. intros z Hz.
      apply (Permutation_in _ (Permutation_sym (insert_after_equivalent_perm x l))) in Hz.
      destruct Hz as [<-|Hz]; auto.
Qed.

Lemma std_stable_sort_snoc l x :
  std_stable_sort cmp (l ++ [x])
  = insert_after_equivalent cmp x (std_stable_sort cmp l).
Proof. unfold std_stable_sort. rewrite fold_left_app. reflexivity. Qed.

Lemma std_stable_sort_ascending l : ascending cmp (std_stable_sort cmp l).
Proof.
  induction l as [|x l IH] using rev_ind.
  - constructor.
  - rewrite std_stable_sort_snoc. apply insert_after_equivalent_ascending, IH.
Qed.

Lemma std_stable_sort_perm l : Permutation l (std_stable_sort cmp l).
Proof.
  induction l as [|x l IH] using rev_ind.
  - reflexivity.
  - rewrite std_stable_sort_snoc, <- insert_after_equivalent_perm.
    rewrite <- IH. symmetry. apply Permutation_cons_append.
Qed.

(** Stability: the members of a class of mutually equivalent elements
    keep their order. *)
Lemma filter_none (p : A -> bool) l :
  (forall z, In z l -> p z = false) -> filter p l = [].
Proof.
  induction l as [|y l IH]; simpl; intros H; [reflexivity|].
  rewrite (H y (or_introl eq_refl)). apply IH. intros z Hz. apply H. now right.
Qed.

Lemma insert_after_equivalent_filter x l (p : A -> bool) :
  ascending cmp l ->
  (forall a b, p a = true -> p b = true -> cmp a b = false) ->
  filter p (insert_after_equivalent cmp x l)
  = filter p l ++ (if p x then [x] else []).
Proof.
  intros Hl Hclass.
  induction Hl as [|y l Hl IH Hy]; simpl.
  - destruct (p x); reflexivity.
  - destruct (cmp x y) eqn:Hxy.
    + destruct (p x) eqn:Hpx; [|rewrite app_nil_r; simpl; rewrite Hpx; reflexivity].
      simpl. rewrite Hpx.
      enough (Hnone : filter p (y :: l) = []).
      { simpl in Hnone. rewrite Hnone. reflexivity. }
      apply filter_none. intros z Hz.
      destruct (p z) eqn:Hpz; [|reflexivity].
      assert (Hxz : cmp x z = true).
      { destruct Hz as [<-|Hz]; [assumption|].
        rewrite Forall_forall in Hy. eapply cmp_lt_le_trans; eauto. }
      rewrite (Hclass x z Hpx Hpz) in Hxz. discriminate.
    + simpl. rewrite IH. destruct (p y); reflexivity.
Qed.

Lemma std_stable_sort_stable l (p : A -> bool) :
  (forall a b, p a = true -> p b = true -> cmp a b = false) ->
  filter p (std_stable_sort cmp l) = filter p l.
Proof.
  intros Hclass. induction l as [|x l IH] using rev_ind; [reflexivity|].
  rewrite std_stable_sort_snoc, insert_after_equivalent_filter;
    auto using std_stable_sort_ascending.
  rewrite IH, filter_app. reflexivity.
Qed.

(** *** [std_inplace_merge] *)

Lemma std_inplace_merge_nil_l l2 : std_inplace_merge cmp [] l2 = l2.
Proof. destruct l2; reflexivity. Qed.

Lemma std_inplace_merge_nil_r l1 : std_inplace_merge cmp l1 [] = l1.
Proof. destruct l1; reflexivity. Qed.

Lemma std_inplace_merge_cons a l1 b l2 :
  std_inplace_merge cmp (a :: l1) (b :: l2)
  = if cmp b a then b :: std_inplace_merge cmp (a :: l1) l2
    else a :: std_inplace_merge cmp l1 (b :: l2).
Proof. reflexivity. Qed.

(** Induction along the two recursions of the merge. *)
Lemma merge_ind (P : list A -> list A -> Prop) :
  (forall l2, P [] l2) ->
  (forall l1, P l1 []) ->
  (forall a l1 b l2,
      (cmp b a = true -> P (a :: l1) l2) ->
      (cmp b a = false -> P l1 (b :: l2)) ->
      P (a :: l1) (b :: l2)) ->
  forall l1 l2, P l1 l2.
Proof.
  intros Hnil_l Hnil_r Hcons.
  induction l1 as [|a l1 IH1]; [assumption|].
  induction l2 as [|b l2 IH2]; [apply Hnil_r|].
  apply Hcons; auto.
Qed.

Lemma std_inplace_merge_perm l1 l2 :
  Permutation (l1 ++ l2) (std_inplace_merge cmp l1 l2).
Proof.
  revert l1 l2.
  apply (merge_ind (fun l1 l2 =>
    Permutation (l1 ++ l2) (std_inplace_merge cmp l1 l2))).
  - intros l2. rewrite std_inplace_merge_nil_l. reflexivity.
  - intros l1. rewrite std_inplace_merge_nil_r, app_nil_r. reflexivity.
  - intros a l1 b l2 IHb IHa. rewrite std_inplace_merge_cons.
    destruct (cmp b a).
    + rewrite <- IHb by reflexivity. symmetry. apply (Permutation_middle (a :: l1)).
    + simpl. constructor. apply IHa. reflexivity.
Qed.

Lemma std_inplace_merge_ascending l1 l2 :
  ascending cmp l1 -> ascending cmp l2 ->
  ascending cmp (std_inplace_merge cmp l1 l2).
Proof.
  unfold ascending. revert l1 l2.
  apply (merge_ind (fun l1 l2 =>
    StronglySorted (fun a b => cmp b a = false) l1 ->
    StronglySorted (fun a b => cmp b a = false) l2 ->
    StronglySorted (fun a b => cmp b a = false) (std_inplace_merge cmp l1 l2))).
  - intros l2 _ H. rewrite std_inplace_merge_nil_l. exact H.
  - intros l1 H _. rewrite std_inplace_merge_nil_r. exact H.
  - intros a l1 b l2 IHb IHa H1 H2. rewrite std_inplace_merge_cons.
    pose proof (StronglySorted_inv H1) as [H1s H1h].
    pose proof (StronglySorted_inv H2) as [H2s H2h].
    rewrite Forall_forall in H1h, H2h.
    destruct (cmp b a) eqn:Hba.
    + constructor; [auto|]. rewrite Forall_forall. intros z Hz.
      apply (Permutation_in _ (Permutation_sym (std_inplace_merge_perm _ _))) in Hz.
      apply in_app_or in Hz. destruct Hz as [[<-|Hz]|Hz]; auto.
      * apply cmp_asym; assumption.
      * apply cmp_asym. eapply cmp_lt_le_trans; eauto.
    + constructor; [auto|]. rewrite Forall_forall. intros z Hz.
      apply (Permutation_in _ (Permutation_sym (std_inplace_merge_perm _ _))) in Hz.
      apply in_app_or in Hz. destruct Hz as [Hz|[<-|Hz]]; auto.
      eapply cmp_le_trans; eauto.
Qed.

(** An element appended to the second range after sorting lands behind all
    the elements of both ranges that are not greater. *)
Lemma std_inplace_merge_insert x l1 l2 :
  std_inplace_merge cmp l1 (insert_after_equivalent cmp x l2)
  = insert_after_equivalent cmp x (std_inplace_merge cmp l1 l2).
Proof.
  revert l2. induction l1 as [|a l1 IH1]; intros l2.
  - rewrite !std_inplace_merge_nil_l. reflexivity.
  - induction l2 as [|b l2 IH2].
    + rewrite std_inplace_merge_nil_r. simpl insert_after_equivalent at 1.
      rewrite std_inplace_merge_cons.
      destruct (cmp x a) eqn:Hxa.
      * rewrite std_inplace_merge_nil_r. simpl. rewrite Hxa. reflexivity.
      * change [x] with (insert_after_equivalent cmp x []).
        rewrite (IH1 []), std_inplace_merge_nil_r. simpl. rewrite Hxa. reflexivity.
    + simpl insert_after_equivalent at 1.
      destruct (cmp x b) eqn:Hxb.
      * rewrite std_inplace_merge_cons.
        destruct (cmp x a) eqn:Hxa.
        -- rewrite (std_inplace_merge_cons a l1 b l2).
           destruct (cmp b a); simpl; rewrite ?Hxa, ?Hxb; reflexivity.
        -- assert (Hba : cmp b a = false).
           { destruct (cmp b a) eqn:Hba; [|reflexivity].
             rewrite (cmp_trans Hxb Hba) in Hxa. discriminate. }
           rewrite (std_inplace_merge_cons a l1 b l2), Hba.
           simpl insert_after_equivalent. rewrite Hxa. f_equal.
           specialize (IH1 (b :: l2)). simpl insert_after_equivalent in IH1 at 1.
           rewrite Hxb in IH1. exact IH1.
      * rewrite !std_inplace_merge_cons.
        destruct (cmp b a) eqn:Hba.
        -- rewrite IH2. simpl. rewrite Hxb. reflexivity.
        -- specialize (IH1 (b :: l2)). simpl insert_after_equivalent in IH1 at 1.
           rewrite Hxb in IH1. rewrite IH1.
           simpl. assert (Hxa : cmp x a = false).
           { destruct (cmp x a) eqn:Hxa; [|reflexivity].
             destruct (cmp_negtrans b Hxa); congruence. }
           rewrite Hxa. reflexivity.
Qed.

(** *** [ordered_insert] *)

Lemma ordered_insert_in x l z :
  In z (ordered_insert cmp x l) -> z = x \/ In z l.
Proof.
  induction l as [|e l IH]; simpl.
  - intros [<-|[]]. now left.
  - destruct (cmp e x); [|destruct (cmp x e)]; simpl; intuition.
Qed.

Lemma ordered_insert_strictly_ascending x l :
  strictly_ascending cmp l -> strictly_ascending cmp (ordered_insert cmp x l).
Proof.
  unfold strictly_ascending.
  induction 1 as [|e l Hl IH He]; simpl.
  - repeat constructor.
  - destruct (cmp e x) eqn:Hex; [|destruct (cmp x e) eqn:Hxe].
    + constructor; [assumption|].
      rewrite Forall_forall in *. intros z Hz.
      apply ordered_insert_in in Hz. destruct Hz as [->|Hz]; auto.
    + constructor; [constructor; assumption|].
      constructor; [assumption|].
      rewrite Forall_forall in *. intros z Hz. eauto.
    + constructor; assumption.
Qed.

Lemma fold_ordered_insert_strictly_ascending input l :
  strictly_ascending cmp l ->
  strictly_ascending cmp
    (fold_left (fun acc x => ordered_insert cmp x acc) input l).
Proof.
  revert l. induction input as [|x input IH]; simpl; intros l Hl; [assumption|].
  apply IH, ordered_insert_strictly_ascending, Hl.
Qed.

(** *** [std_unique] with the predicate [binary_negate cmp] *)

Lemma binary_negate_eq a b : binary_negate cmp a b = negb (cmp a b).
Proof. reflexivity. Qed.

Lemma unique_from_strictly_ascending a l :
  strictly_ascending cmp (a :: l) -> unique_from (binary_negate cmp) a l = l.
Proof.
  unfold strictly_ascending. revert a.
  induction l as [|b l IH]; intros a H; [reflexivity|].
  apply StronglySorted_inv in H. destruct H as [Hl Ha].
  cbn [unique_from]. rewrite binary_negate_eq, (Forall_inv Ha). cbn [negb].
  f_equal. apply IH, Hl.
Qed.

Lemma std_unique_strictly_ascending l :
  strictly_ascending cmp l -> std_unique (binary_negate cmp) l = l.
Proof.
  destruct l as [|a l]; [reflexivity|]. intros H. simpl. f_equal.
  apply unique_from_strictly_ascending, H.
Qed.

Lemma unique_from_insert x a l :
  ascending cmp (a :: l) -> cmp x a = false ->
  unique_from (binary_negate cmp) a (insert_after_equivalent cmp x l)
  = if cmp a x then ordered_insert cmp x (unique_from (binary_negate cmp) a l)
    else unique_from (binary_negate cmp) a l.
Proof.
  unfold ascending. revert a.
  induction l as [|b l IH]; intros a Hsorted Hxa.
  - cbn [insert_after_equivalent unique_from]. rewrite binary_negate_eq.
    destruct (cmp a x); reflexivity.
  - apply StronglySorted_inv in Hsorted. destruct Hsorted as [Hbl Ha].
    pose proof (Forall_inv Ha) as Hab. simpl in Hab.
    assert (Hal : StronglySorted (fun a b => cmp b a = false) (a :: l)).
    { apply StronglySorted_inv in Hbl. destruct Hbl as [Hl _].
      constructor; [assumption|]. exact (Forall_inv_tail Ha). }
    cbn [insert_after_equivalent].
    destruct (cmp x b) eqn:Hxb.
    + cbn [unique_from]. rewrite !binary_negate_eq, Hxb. cbn [negb].
      destruct (cmp a x) eqn:Hax; cbn [negb]; [|reflexivity].
      rewrite (cmp_trans Hax Hxb). cbn [negb ordered_insert].
      rewrite (cmp_asym Hxb), Hxb. reflexivity.
    + cbn [unique_from]. rewrite !binary_negate_eq.
      destruct (cmp a b) eqn:Hcab; cbn [negb].
      * rewrite (IH b Hbl Hxb).
        assert (Hax : cmp a x = true) by (eapply cmp_lt_le_trans; eauto).
        rewrite Hax. cbn [ordered_insert]. rewrite Hxb.
        destruct (cmp b x); reflexivity.
      * apply IH; assumption.
Qed.

Lemma std_unique_insert x l :
  ascending cmp l ->
  std_unique (binary_negate cmp) (insert_after_equivalent cmp x l)
  = ordered_insert cmp x (std_unique (binary_negate cmp) l).
Proof.
  destruct l as [|a l]; [reflexivity|]. intros Hsorted.
  cbn [insert_after_equivalent]. destruct (cmp x a) eqn:Hxa.
  - cbn [std_unique unique_from ordered_insert].
    rewrite binary_negate_eq, Hxa, (cmp_asym Hxa). reflexivity.
  - cbn [std_unique ordered_insert]. rewrite Hxa.
    rewrite unique_from_insert by assumption.
    destruct (cmp a x); reflexivity.
Qed.

(** Sorting a batch, merging it behind the old entries and dropping the
    duplicates inserts the batch element by element. *)
Lemma sort_merge_unique_fold old batch :
  strictly_ascending cmp old ->
  std_unique (binary_negate cmp)
    (std_inplace_merge cmp old (std_stable_sort cmp batch))
  = fold_left (fun acc x => ordered_insert cmp x acc) batch old.
Proof.
  intros Hold. induction batch as [|x batch IH] using rev_ind.
  - unfold std_stable_sort. simpl. rewrite std_inplace_merge_nil_r.
    apply std_unique_strictly_ascending, Hold.
  - rewrite std_stable_sort_snoc, std_inplace_merge_insert, fold_left_app.
    simpl. rewrite <- IH. apply std_unique_insert.
    apply std_inplace_merge_ascending.
    + apply strictly_ascending_ascending, Hold.
    + apply std_stable_sort_ascending.
Qed.

End AlgorithmFacts.

(** ** Lookup and single-element mutation *)
Section FlatMapFacts.

Context {K V : Type} {C : Compare K} {SWO : StrictWeakOrder C}
        {G : GrowthPolicy}.

Local Abbreviation entry := (value_type K V).
Local Abbreviation fmap := (flat_map K V).

Lemma value_compare_irrefl (a : entry) : value_compare a a = false.
Proof. apply comp_irrefl. Qed.

Lemma value_compare_trans (a b c : entry) :
  value_compare a b = true -> value_compare b c = true ->
  value_compare a c = true.
Proof. apply comp_trans. Qed.

Lemma value_compare_negtrans (a b c : entry) :
  value_compare a c = true ->
  value_compare a b = true \/ value_compare b c = true.
Proof. apply comp_negtrans. Qed.

Lemma key_compare_asym (a b : K) :
  key_compare a b = true -> key_compare b a = false.
Proof.
  intros Hab. destruct (key_compare b a) eqn:Hba; [|reflexivity].
  rewrite <- (comp_irrefl a). symmetry. eapply comp_trans; eauto.
Qed.

Lemma equivalent_iff (a b : K) :
  equivalent a b = true <-> key_compare a b = false /\ key_compare b a = false.
Proof.
  unfold equivalent. rewrite andb_true_iff, !negb_true_iff. reflexivity.
Qed.

Lemma equivalent_sym (a b : K) : equivalent a b = equivalent b a.
Proof. unfold equivalent. apply andb_comm. Qed.

Lemma I1_strictly_ascending (m : fmap) :
  I1 m <-> strictly_ascending value_compare (m_data m).
Proof.
  unfold I1, strictly_ascending. split.
  - apply Sorted_StronglySorted. intros a b c. apply value_compare_trans.
  - apply StronglySorted_Sorted.
Qed.

Lemma strictly_ascending_nth (l : list entry) i j a b :
  strictly_ascending value_compare l -> i < j ->
  nth_error l i = Some a -> nth_error l j = Some b ->
  value_compare a b = true.
Proof.
  unfold strictly_ascending. intros Hl. revert i j.
  induction Hl as [|e l Hl IH He]; intros i j Hij Hi Hj.
  - destruct i; discriminate.
  - destruct j as [|j]; [lia|]. simpl in Hj. destruct i as [|i].
    + injection Hi as <-. rewrite Forall_forall in He.
      apply He. eapply nth_error_In; eauto.
    + simpl in Hi. apply (IH i j); auto. lia.
Qed.

Lemma I1_unique_keys (m : fmap) : I1 m -> unique_keys m.
Proof.
  rewrite I1_strictly_ascending. intros Hm i j a b Hi Hj Heq.
  apply equivalent_iff in Heq. destruct Heq as [Hab Hba].
  destruct (Nat.lt_trichotomy i j) as [Hlt|[Heq|Hgt]]; [|assumption|].
  - pose proof (strictly_ascending_nth Hm Hlt Hi Hj) as H.
    unfold value_compare in H. congruence.
  - pose proof (strictly_ascending_nth Hm Hgt Hj Hi) as H.
    unfold value_compare in H. congruence.
Qed.

(** *** [std_lower_bound] *)

Lemma std_lower_bound_le (l : list entry) k : std_lower_bound l k <= length l.
Proof.
  induction l as [|e l IH]; simpl; [lia|].
  destruct (key_compare (fst e) k); lia.
Qed.

Lemma std_lower_bound_before (l : list entry) k i e :
  i < std_lower_bound l k -> nth_error l i = Some e ->
  key_compare (fst e) k = true.
Proof.
  revert i. induction l as [|e0 l IH]; simpl; intros i Hi Hnth; [lia|].
  destruct (key_compare (fst e0) k) eqn:He0; [|lia].
  destruct i as [|i]; simpl in Hnth.
  - injection Hnth as <-. assumption.
  - apply (IH i); auto. lia.
Qed.

Lemma std_lower_bound_at (l : list entry) k e :
  nth_error l (std_lower_bound l k) = Some e ->
  key_compare (fst e) k = false.
Proof.
  induction l as [|e0 l IH]; simpl; [discriminate|].
  destruct (key_compare (fst e0) k) eqn:He0; simpl; [assumption|].
  intros H. injection H as <-. assumption.
Qed.

Lemma std_lower_bound_after (l : list entry) k j e :
  strictly_ascending value_compare l ->
  std_lower_bound l k <= j -> nth_error l j = Some e ->
  key_compare (fst e) k = false.
Proof.
  intros Hl Hj Hnth.
  destruct (nth_error l (std_lower_bound l k)) as [e0|] eqn:Hlb.
  - pose proof (std_lower_bound_at _ _ Hlb) as He0.
    destruct (Nat.eq_dec (std_lower_bound l k) j) as [<-|Hne].
    + congruence.
    + assert (Hlt : std_lower_bound l k < j) by lia.
      pose proof (strictly_ascending_nth Hl Hlt Hlb Hnth) as H.
      unfold value_compare in H.
      destruct (key_compare (fst e) k) eqn:Hek; [|reflexivity].
      rewrite (comp_trans _ _ _ H Hek) in He0. discriminate.
  - apply nth_error_None in Hlb.
    assert (j < length l) by (apply nth_error_Some; congruence). lia.
Qed.

(** On strictly ascending entries the bisection of the libraries finds the
    position that [std_lower_bound] describes. *)
Lemma bisect_lower_bound (l : list entry) k fuel :
  strictly_ascending value_compare l ->
  forall first len,
    len <= fuel -> first + len <= length l ->
    first <= std_lower_bound l k <= first + len ->
    bisect fuel l k first len = std_lower_bound l k.
Proof.
  intros Hl. induction fuel as [|fuel IH]; intros first len Hfuel Hlen Hlb.
  - simpl. lia.
  - cbn [bisect]. destruct (Nat.eqb_spec len 0) as [->|Hpos]; [lia|].
    cbv zeta.
    assert (Hhalf : len / 2 < len) by (apply Nat.div_lt; lia).
    destruct (nth_error l (first + len / 2)) as [e|] eqn:He;
      [|apply nth_error_None in He; lia].
    destruct (key_compare (fst e) k) eqn:Hek.
    + apply IH; try lia.
      destruct (Nat.lt_ge_cases (first + len / 2) (std_lower_bound l k))
        as [Hbelow|Habove]; [lia|].
      rewrite (std_lower_bound_after _ Hl Habove He) in Hek. discriminate.
    + apply IH; try lia.
      destruct (Nat.lt_ge_cases (first + len / 2) (std_lower_bound l k))
        as [Hbelow|Habove]; [|lia].
      rewrite (std_lower_bound_before _ _ Hbelow He) in Hek. discriminate.
Qed.

Lemma std_lower_bound_bisect_eq (m : fmap) k :
  I1 m -> std_lower_bound_bisect (m_data m) k = std_lower_bound (m_data m) k.
Proof.
  rewrite I1_strictly_ascending. intros Hm. unfold std_lower_bound_bisect.
  apply bisect_lower_bound; auto.
  pose proof (std_lower_bound_le (m_data m) k). lia.
Qed.

(** The position is determined by the entries around it. *)
Lemma std_lower_bound_split (l1 l2 : list entry) k :
  Forall (fun e => key_compare (fst e) k = true) l1 ->
  match l2 with
  | [] => True
  | e :: _ => key_compare (fst e) k = false
  end ->
  std_lower_bound (l1 ++ l2) k = length l1.
Proof.
  induction 1 as [|e l1 He Hl1 IH]; simpl; intros Hl2.
  - destruct l2 as [|e l2]; simpl; [reflexivity|]. rewrite Hl2. reflexivity.
  - rewrite He. f_equal. apply IH, Hl2.
Qed.

(** *** [binary_find] *)

Lemma binary_find_found (l : list entry) k e :
  binary_find l k <> length l ->
  nth_error l (binary_find l k) = Some e ->
  equivalent (fst e) k = true.
Proof.
  unfold binary_find.
  destruct (nth_error l (std_lower_bound l k)) as [e0|] eqn:Hlb; [|congruence].
  destruct (key_compare k (fst e0)) eqn:Hk; [congruence|].
  intros _ Hnth. rewrite Hlb in Hnth. injection Hnth as <-.
  apply equivalent_iff. split; [|assumption].
  eapply std_lower_bound_at; eauto.
Qed.

Lemma binary_find_lt (l : list entry) k :
  binary_find l k <> length l -> binary_find l k < length l.
Proof.
  unfold binary_find.
  destruct (nth_error l (std_lower_bound l k)) as [e0|] eqn:Hlb; [|congruence].
  destruct (key_compare k (fst e0)); [congruence|].
  intros _. apply nth_error_Some. congruence.
Qed.

Lemma binary_find_end_iff (m : fmap) k :
  I1 m -> (find k m = end_ m <-> ~ has_key k m).
Proof.
  rewrite I1_strictly_ascending. intros Hm.
  unfold find, end_, size, has_key. split.
  - intros Hend [e [Hin Heq]].
    apply equivalent_iff in Heq. destruct Heq as [Hek Hke].
    apply In_nth_error in Hin. destruct Hin as [j Hj].
    unfold binary_find in Hend.
    destruct (Nat.lt_ge_cases j (std_lower_bound (m_data m) k)) as [Hlt|Hge].
    + rewrite (std_lower_bound_before _ _ Hlt Hj) in Hek. discriminate.
    + destruct (nth_error (m_data m) (std_lower_bound (m_data m) k))
        as [e0|] eqn:Hlb.
      * destruct (key_compare k (fst e0)) eqn:Hk.
        -- destruct (Nat.eq_dec (std_lower_bound (m_data m) k) j) as [Heqj|Hne].
           ++ rewrite Heqj in Hlb. congruence.
           ++ assert (Hlt : std_lower_bound (m_data m) k < j) by lia.
              pose proof (strictly_ascending_nth Hm Hlt Hlb Hj) as H.
              unfold value_compare in H.
              rewrite (comp_trans _ _ _ Hk H) in Hke. discriminate.
        -- assert (std_lower_bound (m_data m) k < length (m_data m))
             by (apply nth_error_Some; congruence).
           lia.
      * apply nth_error_None in Hlb.
        assert (j < length (m_data m)) by (apply nth_error_Some; congruence).
        lia.
  - intros Hno. destruct (Nat.eq_dec (binary_find (m_data m) k) (length (m_data m)))
      as [Heq|Hne]; [assumption|]. exfalso. apply Hno.
    pose proof (binary_find_lt _ _ Hne) as Hlt.
    destruct (nth_error (m_data m) (binary_find (m_data m) k)) as [e|] eqn:He.
    + exists e. split; [eapply nth_error_In; eauto|].
      eapply binary_find_found; eauto.
    + apply nth_error_None in He. lia.
Qed.

(** *** [emplace] *)

Lemma vector_emplace_data pos (x : entry) (m : fmap) :
  m_data (vector_emplace pos x m)
  = firstn pos (m_data m) ++ x :: skipn pos (m_data m).
Proof. reflexivity. Qed.

(** On the entries, [emplace] is [ordered_insert]. *)
Lemma emplace_data (x : entry) (m : fmap) :
  m_data (fst (emplace x m)) = ordered_insert value_compare x (m_data m).
Proof.
  unfold emplace. destruct m as [l unused]. cbn [m_data].
  assert (Hl : forall l,
    m_data (fst
      (match nth_error l (std_lower_bound l (fst x)) with
       | None =>
           (vector_emplace (std_lower_bound l (fst x)) x
              {| m_data := l; m_unused := unused |},
            (std_lower_bound l (fst x), true))
       | Some e =>
           if key_compare (fst x) (fst e)
           then (vector_emplace (std_lower_bound l (fst x)) x
                   {| m_data := l; m_unused := unused |},
                 (std_lower_bound l (fst x), true))
           else ({| m_data := l; m_unused := unused |},
                 (std_lower_bound l (fst x), false))
       end))
    = ordered_insert value_compare x l); [|apply Hl].
  clear l. induction l as [|e l IH]; [reflexivity|].
  cbn [std_lower_bound ordered_insert].
  change (value_compare e x) with (key_compare (fst e) (fst x)).
  change (value_compare x e) with (key_compare (fst x) (fst e)).
  destruct (key_compare (fst e) (fst x)) eqn:Hex.
  - cbn [nth_error]. rewrite <- IH.
    destruct (nth_error l (std_lower_bound l (fst x))) as [e0|];
      [destruct (key_compare (fst x) (fst e0))|]; reflexivity.
  - cbn [nth_error]. destruct (key_compare (fst x) (fst e)); reflexivity.
Qed.

Lemma emplace_I1 (x : entry) (m : fmap) : I1 m -> I1 (fst (emplace x m)).
Proof.
  rewrite !I1_strictly_ascending, emplace_data.
  apply ordered_insert_strictly_ascending. exact value_compare_trans.
Qed.

Lemma emplace_each_data (input : list entry) (m : fmap) :
  m_data (emplace_each m input)
  = fold_left (fun acc x => ordered_insert value_compare x acc) input (m_data m).
Proof.
  unfold emplace_each. revert m.
  induction input as [|x input IH]; intros m; [reflexivity|].
  cbn [fold_left]. rewrite IH, emplace_data. reflexivity.
Qed.

Lemma emplace_each_app (m : fmap) (l1 l2 : list entry) :
  emplace_each m (l1 ++ l2) = emplace_each (emplace_each m l1) l2.
Proof. apply fold_left_app. Qed.

Lemma emplace_each_I1 (input : list entry) (m : fmap) :
  I1 m -> I1 (emplace_each m input).
Proof.
  unfold emplace_each. revert m.
  induction input as [|x input IH]; intros m Hm; [assumption|].
  apply IH, emplace_I1, Hm.
Qed.

(** A rejected [emplace] changes nothing and points at the equivalent key. *)
Lemma emplace_rejected (x : entry) (m : fmap) :
  snd (snd (emplace x m)) = false ->
  fst (emplace x m) = m /\
  exists e, nth_error (m_data m) (fst (snd (emplace x m))) = Some e /\
            equivalent (fst e) (fst x) = true.
Proof.
  unfold emplace.
  destruct (nth_error (m_data m) (std_lower_bound (m_data m) (fst x)))
    as [e|] eqn:Hlb; [|discriminate].
  destruct (key_compare (fst x) (fst e)) eqn:Hxe; [discriminate|].
  intros _. split; [reflexivity|]. exists e. split; [exact Hlb|].
  apply equivalent_iff. split; [|assumption].
  eapply std_lower_bound_at; eauto.
Qed.

(** A successful [emplace] puts the new entry at the returned position. *)
Lemma emplace_inserted (x : entry) (m : fmap) :
  snd (snd (emplace x m)) = true ->
  fst (emplace x m) = vector_emplace (lower_bound (fst x) m) x m /\
  fst (snd (emplace x m)) = lower_bound (fst x) m /\
  nth_error (m_data (fst (emplace x m))) (fst (snd (emplace x m))) = Some x.
Proof.
  unfold emplace, lower_bound.
  assert (Hnth : nth_error
            (m_data (vector_emplace (std_lower_bound (m_data m) (fst x)) x m))
            (std_lower_bound (m_data m) (fst x)) = Some x).
  { rewrite vector_emplace_data.
    pose proof (std_lower_bound_le (m_data m) (fst x)) as Hle.
    rewrite nth_error_app2; rewrite length_firstn, Nat.min_l by lia; [|lia].
    rewrite Nat.sub_diag. reflexivity. }
  destruct (nth_error (m_data m) (std_lower_bound (m_data m) (fst x)))
    as [e|] eqn:Hlb.
  - destruct (key_compare (fst x) (fst e)) eqn:Hxe; [|discriminate].
    intros _. cbn [fst snd]. auto.
  - intros _. cbn [fst snd]. auto.
Qed.

Lemma emplace_inserted_iff (x : entry) (m : fmap) :
  I1 m -> (snd (snd (emplace x m)) = true <-> ~ has_key (fst x) m).
Proof.
  intros Hm. split.
  - intros Hins [e [Hin Heq]].
    pose proof (proj1 (I1_strictly_ascending m) Hm) as Hsorted.
    apply equivalent_iff in Heq. destruct Heq as [Hex Hxe].
    apply In_nth_error in Hin. destruct Hin as [j Hj].
    unfold emplace in Hins.
    destruct (Nat.lt_ge_cases j (std_lower_bound (m_data m) (fst x))) as [Hlt|Hge].
    + rewrite (std_lower_bound_before _ _ Hlt Hj) in Hex. discriminate.
    + destruct (nth_error (m_data m) (std_lower_bound (m_data m) (fst x)))
        as [e0|] eqn:Hlb.
      * destruct (key_compare (fst x) (fst e0)) eqn:Hk; [|discriminate].
        destruct (Nat.eq_dec (std_lower_bound (m_data m) (fst x)) j) as [Heqj|Hne].
        -- rewrite Heqj in Hlb. congruence.
        -- assert (Hlt : std_lower_bound (m_data m) (fst x) < j) by lia.
           pose proof (strictly_ascending_nth Hsorted Hlt Hlb Hj) as H.
           unfold value_compare in H.
           rewrite (comp_trans _ _ _ Hk H) in Hxe. discriminate.
      * apply nth_error_None in Hlb.
        assert (j < length (m_data m)) by (apply nth_error_Some; congruence).
        lia.
  - intros Hno. destruct (snd (snd (emplace x m))) eqn:Hins; [reflexivity|].
    exfalso. apply Hno. apply emplace_rejected in Hins.
    destruct Hins as [_ [e [Hnth Heq]]].
    exists e. split; [eapply nth_error_In; eauto|assumption].
Qed.

(** *** [emplace_hint] *)

Lemma std_lower_bound_at_hint (l : list entry) k hint :
  hint <= length l ->
  (forall i e, i < hint -> nth_error l i = Some e ->
               key_compare (fst e) k = true) ->
  (forall h, nth_error l hint = Some h -> key_compare (fst h) k = false) ->
  std_lower_bound l k = hint.
Proof.
  intros Hhint Hbefore Hat.
  rewrite <- (firstn_skipn hint l) at 1.
  rewrite std_lower_bound_split.
  - rewrite length_firstn. lia.
  - rewrite Forall_forall. intros e Hin.
    apply In_nth_error in Hin. destruct Hin as [i Hi].
    rewrite nth_error_firstn in Hi.
    destruct (i <? hint) eqn:Hlt; [|discriminate].
    apply Nat.ltb_lt in Hlt. eauto.
  - pose proof (hd_error_skipn hint l) as Hhd.
    destruct (skipn hint l) as [|h tl]; [exact I|].
    apply Hat. rewrite <- Hhd. reflexivity.
Qed.

Lemma emplace_with_lower_bound (x : entry) (m : fmap) hint :
  std_lower_bound (m_data m) (fst x) = hint ->
  emplace x m
  = match nth_error (m_data m) hint with
    | None => (vector_emplace hint x m, (hint, true))
    | Some e =>
        if key_compare (fst x) (fst e)
        then (vector_emplace hint x m, (hint, true))
        else (m, (hint, false))
    end.
Proof. intros <-. reflexivity. Qed.

(** The shortcut of [emplace_hint]: the candidate lies between the entry in
    front of [hint] and the entry at [hint]. *)
Lemma emplace_between (x : entry) (m : fmap) hint :
  I1 m -> hint <= size m ->
  match nth_error (m_data m) hint with
  | None => True
  | Some h => key_compare (fst x) (fst h) = true
  end ->
  match hint with
  | 0 => True
  | S prev => exists p, nth_error (m_data m) prev = Some p /\
                        key_compare (fst p) (fst x) = true
  end ->
  emplace x m = (vector_emplace hint x m, (hint, true)).
Proof.
  rewrite I1_strictly_ascending. intros Hm Hhint Hat Hprev.
  rewrite (@emplace_with_lower_bound x m hint).
  - destruct (nth_error (m_data m) hint) as [h|]; [rewrite Hat|]; reflexivity.
  - apply std_lower_bound_at_hint; [exact Hhint| |].
    + intros i e Hi He. destruct hint as [|prev]; [lia|].
      destruct Hprev as [p [Hp Hpx]].
      destruct (Nat.eq_dec i prev) as [->|Hne]; [congruence|].
      assert (Hlt : i < prev) by lia.
      pose proof (strictly_ascending_nth Hm Hlt He Hp) as H.
      unfold value_compare in H. eapply comp_trans; eauto.
    + intros h Hh. rewrite Hh in Hat. apply key_compare_asym, Hat.
Qed.

(** The entry at [hint] is equivalent to the candidate. *)
Lemma emplace_at_equivalent (x h : entry) (m : fmap) hint :
  I1 m -> nth_error (m_data m) hint = Some h ->
  key_compare (fst x) (fst h) = false ->
  key_compare (fst h) (fst x) = false ->
  emplace x m = (m, (hint, false)).
Proof.
  rewrite I1_strictly_ascending. intros Hm Hh Hxh Hhx.
  rewrite (@emplace_with_lower_bound x m hint).
  - rewrite Hh, Hxh. reflexivity.
  - apply std_lower_bound_at_hint.
    + apply Nat.lt_le_incl, nth_error_Some. congruence.
    + intros i e Hi He.
      pose proof (strictly_ascending_nth Hm Hi He Hh) as H.
      unfold value_compare in H.
      destruct (comp_negtrans _ (fst x) _ H); congruence.
    + intros h' Hh'. congruence.
Qed.

Lemma emplace_hint_emplace (hint : nat) (x : entry) (m : fmap) :
  I1 m -> hint <= size m ->
  emplace_hint hint x m
  = Some (fst (emplace x m), fst (snd (emplace x m))).
Proof.
  intros Hm Hhint. unfold emplace_hint.
  destruct (size m <? hint) eqn:Hout; [apply Nat.ltb_lt in Hout; lia|].
  cbv zeta.
  assert (Hfallback :
    (let '(m', (it, _)) := emplace x m in Some (m', it))
    = Some (fst (emplace x m), fst (snd (emplace x m)))).
  { destruct (emplace x m) as [m' [it inserted]]. reflexivity. }
  rewrite Hfallback.
  assert (Hbefore :
    match nth_error (m_data m) hint with
    | None => True
    | Some h => key_compare (fst x) (fst h) = true
    end ->
    match hint with
    | 0 => Some (vector_emplace hint x m, hint)
    | S prev =>
        match nth_error (m_data m) prev with
        | Some p =>
            if key_compare (fst p) (fst x)
            then Some (vector_emplace hint x m, hint)
            else Some (fst (emplace x m), fst (snd (emplace x m)))
        | None => None
        end
    end = Some (fst (emplace x m), fst (snd (emplace x m)))).
  { intros Hat. destruct hint as [|prev].
    - rewrite (@emplace_between x m 0); auto.
    - destruct (nth_error (m_data m) prev) as [p|] eqn:Hp.
      + destruct (key_compare (fst p) (fst x)) eqn:Hpx; [|reflexivity].
        rewrite (@emplace_between x m (S prev)); eauto.
      + apply nth_error_None in Hp. unfold size in Hhint. lia. }
  destruct (nth_error (m_data m) hint) as [h|] eqn:Hh.
  - destruct (key_compare (fst x) (fst h)) eqn:Hxh; [apply Hbefore; reflexivity|].
    clear Hbefore.
    destruct (key_compare (fst h) (fst x)) eqn:Hhx; cbn [negb]; [reflexivity|].
    rewrite (@emplace_at_equivalent x h m hint); auto.
  - apply Hbefore. exact I.
Qed.

(** *** [operator[]], [erase], [clear] *)

Lemma subscript_emplace `{Default V} (key : K) (m : fmap) :
  subscript key m
  = (fst (emplace (key, default_value) m),
     fst (snd (emplace (key, default_value) m))).
Proof.
  unfold subscript, emplace, lower_bound. cbn [fst].
  destruct (nth_error (m_data m) (std_lower_bound (m_data m) key)) as [e|];
    [destruct (key_compare key (fst e))|]; reflexivity.
Qed.

Lemma strongly_sorted_drop_middle (R : entry -> entry -> Prop) l1 l2 l3 :
  StronglySorted R (l1 ++ l2 ++ l3) -> StronglySorted R (l1 ++ l3).
Proof.
  induction l1 as [|a l1 IH]; simpl.
  - induction l2 as [|b l2 IH2]; simpl; [auto|].
    intros H. apply StronglySorted_inv in H. tauto.
  - intros H. apply StronglySorted_inv in H. destruct H as [Hs Ha].
    constructor; [auto|].
    rewrite Forall_forall in *. intros z Hz. apply Ha.
    apply in_app_or in Hz. apply in_or_app.
    destruct Hz; [now left|right]. apply in_or_app. now right.
Qed.

Lemma vector_erase_range_I1 first last (m : fmap) :
  first <= last -> I1 m -> I1 (vector_erase_range first last m).
Proof.
  rewrite !I1_strictly_ascending. unfold strictly_ascending.
  cbn [vector_erase_range m_data]. intros Hle Hm.
  apply strongly_sorted_drop_middle with (l2 := firstn (last - first) (skipn first (m_data m))).
  replace (skipn last (m_data m))
    with (skipn (last - first) (skipn first (m_data m))).
  - rewrite !firstn_skipn. exact Hm.
  - rewrite skipn_skipn. f_equal. lia.
Qed.

Lemma clear_I1 (m : fmap) : I1 (clear m).
Proof. constructor. Qed.

End FlatMapFacts.

(** ** The loops of [insert(begin, end)] *)
Section BulkFacts.

Context {K V : Type} {C : Compare K} {G : GrowthPolicy}.

Local Abbreviation entry := (value_type K V).
Local Abbreviation fmap := (flat_map K V).

(** The value of [std::not2(comp)], whatever it is. *)
Variable negated : entry -> entry -> bool.

Lemma full_iff (m : fmap) : (size m =? capacity m) = true <-> m_unused m = 0.
Proof. unfold capacity. rewrite Nat.eqb_eq. lia. Qed.

(** Lines 384-386 consume a prefix of the input with [emplace] and stop
    either at the end of the input or with a free slot. *)
Lemma emplace_while_full_spec (input : list entry) :
  forall (m m' : fmap) rest,
    emplace_while_full m input = (m', rest) ->
    exists consumed,
      input = consumed ++ rest /\
      m' = emplace_each m consumed /\
      (rest <> [] -> m_unused m' <> 0).
Proof.
  induction input as [|x input IH]; intros m m' rest Hrun; simpl in Hrun.
  - injection Hrun as <- <-. exists []. repeat split. congruence.
  - destruct (size m =? capacity m) eqn:Hfull.
    + apply IH in Hrun. destruct Hrun as [consumed [-> [-> Hfree]]].
      exists (x :: consumed). repeat split. exact Hfree.
    + injection Hrun as <- <-. exists []. repeat split.
      intros _ Hzero. apply full_iff in Hzero. congruence.
Qed.

(** Lines 394-396 append a prefix of the input without reallocating; the
    prefix is not empty when there is input and a free slot. *)
Lemma append_chunk_spec (input : list entry) :
  forall i size_before (m m' : fmap) rest,
    i = size_before + m_unused m ->
    append_chunk i size_before m input = (m', rest) ->
    exists batch,
      input = batch ++ rest /\
      m_data m' = m_data m ++ batch /\
      m_unused m = m_unused m' + length batch /\
      (m_unused m <> 0 -> input <> [] -> batch <> []).
Proof.
  induction input as [|x input IH]; intros i size_before m m' rest Hi Hrun;
    simpl in Hrun.
  - injection Hrun as <- <-. exists []. simpl.
    repeat split; rewrite ?app_nil_r; try lia; congruence.
  - destruct (size_before <? i) eqn:Hroom.
    + apply Nat.ltb_lt in Hroom.
      destruct (m_unused m) as [|free] eqn:Hunused; [lia|].
      apply IH in Hrun; [|cbn [vector_emplace_back m_unused]; rewrite Hunused; lia].
      destruct Hrun as [batch [-> [Hdata [Hfree _]]]].
      cbn [vector_emplace_back m_data m_unused] in Hdata, Hfree.
      rewrite Hunused in Hfree.
      exists (x :: batch). repeat split.
      * rewrite Hdata, <- app_assoc. reflexivity.
      * cbn [length]. lia.
      * congruence.
    + apply Nat.ltb_ge in Hroom. injection Hrun as <- <-.
      exists []. simpl. repeat split; rewrite ?app_nil_r; try lia; congruence.
Qed.

(** Lines 412-417 consume a prefix of the input with [emplace]; the prefix is
    not empty when there is input. *)
Lemma emplace_until_inserted_spec (input : list entry) :
  forall (m m' : fmap) rest,
    emplace_until_inserted m input = (m', rest) ->
    exists consumed,
      input = consumed ++ rest /\
      m' = emplace_each m consumed /\
      (input <> [] -> consumed <> []).
Proof.
  induction input as [|x input IH]; intros m m' rest Hrun; simpl in Hrun.
  - injection Hrun as <- <-. exists []. repeat split. congruence.
  - destruct (emplace x m) as [m1 [it inserted]] eqn:Hemplace.
    destruct inserted.
    + injection Hrun as <- <-. exists [x]. unfold emplace_each. simpl.
      rewrite Hemplace. repeat split. congruence.
    + apply IH in Hrun. destruct Hrun as [consumed [-> [-> _]]].
      exists (x :: consumed). unfold emplace_each. simpl. rewrite Hemplace.
      repeat split. congruence.
Qed.

(** Every batch consumes input. *)
Lemma insert_batch_consumes (m m' : fmap) (input rest : list entry) :
  m_unused m <> 0 -> input <> [] ->
  insert_batch negated m input = (m', rest) ->
  exists consumed, input = consumed ++ rest /\ consumed <> [].
Proof.
  intros Hfree Hinput. unfold insert_batch, stuck_batch_fallback.
  destruct (append_chunk (capacity m) (size m) m input) as [m2 input2] eqn:Happend.
  apply append_chunk_spec in Happend; [|reflexivity].
  destruct Happend as [batch [-> [_ [_ Hbatch]]]].
  specialize (Hbatch Hfree Hinput).
  destruct (size (sort_merge_unique negated (size m) m2) =? size m).
  - intros Hrun. apply emplace_until_inserted_spec in Hrun.
    destruct Hrun as [consumed [-> _]].
    exists (batch ++ consumed). rewrite app_assoc. split; [reflexivity|].
    destruct batch; [congruence|discriminate].
  - intros Hrun. injection Hrun as <- <-. exists batch. auto.
Qed.

Lemma insert_range_fuel_total fuel :
  forall (m : fmap) (input : list entry),
    length input <= fuel ->
    exists m', insert_range_fuel negated fuel m input = Some m'.
Proof.
  induction fuel as [|fuel IH]; intros m input Hfuel; simpl.
  - destruct input; [|simpl in Hfuel; lia]. simpl. eauto.
  - destruct (emplace_while_full m input) as [m1 input1] eqn:Hfull.
    apply emplace_while_full_spec in Hfull.
    destruct Hfull as [consumed [-> [_ Hfree]]].
    destruct input1 as [|x input1]; [eauto|].
    destruct (insert_batch negated m1 (x :: input1)) as [m4 input4] eqn:Hbatch.
    apply insert_batch_consumes in Hbatch; [|apply Hfree|]; try congruence.
    destruct Hbatch as [batch [Hsplit Hbatch]].
    apply IH. rewrite length_app, Hsplit, length_app in Hfuel.
    destruct batch; [congruence|]. simpl in Hfuel. lia.
Qed.

End BulkFacts.

Section BulkRefinement.

Context {K V : Type} {C : Compare K} {SWO : StrictWeakOrder C}
        {G : GrowthPolicy}.

Local Abbreviation entry := (value_type K V).
Local Abbreviation fmap := (flat_map K V).

(** The negator that [std::not2] gives for a comparison with the argument
    types. *)
Local Abbreviation negated := (binary_negate (@value_compare K V C)).

Lemma emplace_each_data_ext (m1 m2 : fmap) (input : list entry) :
  m_data m1 = m_data m2 ->
  m_data (emplace_each m1 input) = m_data (emplace_each m2 input).
Proof. intros H. rewrite !emplace_each_data, H. reflexivity. Qed.

Lemma I1_data_ext (m1 m2 : fmap) : m_data m1 = m_data m2 -> I1 m1 -> I1 m2.
Proof. unfold I1. intros ->. auto. Qed.

(** Lines 405-410 turn the appended batch into what [emplace] would have
    made of it. *)
Lemma sort_merge_unique_data (m m2 : fmap) (batch : list entry) :
  I1 m -> m_data m2 = m_data m ++ batch ->
  m_data (sort_merge_unique negated (size m) m2) = m_data (emplace_each m batch).
Proof.
  intros Hm Hdata. unfold sort_merge_unique, size. cbn [m_data].
  rewrite Hdata, firstn_app, firstn_all, Nat.sub_diag, firstn_O, app_nil_r.
  rewrite skipn_app, skipn_all, Nat.sub_diag, skipn_O. cbn [app].
  rewrite emplace_each_data.
  apply sort_merge_unique_fold.
  - exact value_compare_irrefl.
  - exact value_compare_trans.
  - exact value_compare_negtrans.
  - apply I1_strictly_ascending, Hm.
Qed.

Lemma insert_batch_spec (m m' : fmap) (input rest : list entry) :
  I1 m -> m_unused m <> 0 -> input <> [] ->
  insert_batch negated m input = (m', rest) ->
  exists consumed,
    input = consumed ++ rest /\ consumed <> [] /\
    m_data m' = m_data (emplace_each m consumed).
Proof.
  intros Hm Hfree Hinput. unfold insert_batch, stuck_batch_fallback.
  destruct (append_chunk (capacity m) (size m) m input) as [m2 input2] eqn:Happend.
  apply append_chunk_spec in Happend; [|reflexivity].
  destruct Happend as [batch [-> [Hdata [_ Hbatch]]]].
  specialize (Hbatch Hfree Hinput).
  pose proof (@sort_merge_unique_data m m2 batch Hm Hdata) as Hmerged.
  destruct (size (sort_merge_unique negated (size m) m2) =? size m).
  - intros Hrun. apply emplace_until_inserted_spec in Hrun.
    destruct Hrun as [consumed [-> [-> _]]].
    exists (batch ++ consumed). rewrite app_assoc. repeat split.
    + destruct batch; [congruence|discriminate].
    + rewrite emplace_each_app. apply emplace_each_data_ext, Hmerged.
  - intros Hrun. injection Hrun as <- <-. exists batch. auto.
Qed.

(** With that negator the body and insertion one at a time build the same
    entries. *)
Lemma insert_range_fuel_spec fuel :
  forall (m : fmap) (input : list entry),
    length input <= fuel -> I1 m ->
    exists m', insert_range_fuel negated fuel m input = Some m' /\
               m_data m' = m_data (emplace_each m input).
Proof.
  induction fuel as [|fuel IH]; intros m input Hfuel Hm; simpl.
  - destruct input; [|simpl in Hfuel; lia]. simpl. eauto.
  - destruct (emplace_while_full m input) as [m1 input1] eqn:Hfull.
    apply emplace_while_full_spec in Hfull.
    destruct Hfull as [consumed [-> [-> Hfree]]].
    destruct input1 as [|x input1].
    + rewrite app_nil_r. eauto.
    + destruct (insert_batch negated (emplace_each m consumed) (x :: input1))
        as [m4 input4] eqn:Hbatch.
      apply insert_batch_spec in Hbatch;
        [|apply emplace_each_I1, Hm|apply Hfree; congruence|congruence].
      destruct Hbatch as [batch [Hsplit [Hbatch Hdata]]].
      destruct (IH m4 input4) as [m' [Hrun Hdata']].
      * rewrite length_app, Hsplit, length_app in Hfuel.
        destruct batch; [congruence|]. simpl in Hfuel. lia.
      * apply (I1_data_ext _ (eq_sym Hdata)).
        apply emplace_each_I1, emplace_each_I1, Hm.
      * exists m'. split; [exact Hrun|].
        rewrite Hdata', Hsplit, !emplace_each_app.
        apply emplace_each_data_ext, Hdata.
Qed.

(** What line 410 lacks is the two member types of [value_compare] and
    nothing else: for a comparison class that declares them and compares
    like [value_compare], [std::not2] has a value, and with it the body of
    [insert(begin, end)] returns the entries of one [emplace] per element. *)
Lemma insert_range_body_refines_emplace (f : function_object entry)
  (negated' : entry -> entry -> bool) (m : fmap) (input : list entry) :
  call f = value_compare -> std_not2 f = Some negated' -> I1 m ->
  exists m',
    insert_range_fuel negated' (length input) m input = Some m' /\
    m_data m' = m_data (emplace_each m input).
Proof.
  unfold std_not2. intros Hcall Hvalue Hm.
  destruct (has_argument_types f); [|discriminate].
  injection Hvalue as <-. rewrite Hcall.
  apply insert_range_fuel_spec; [apply le_n|exact Hm].
Qed.

End BulkRefinement.

(** ** The loops of [insert(begin, end)] with throwing constructions *)
Section ThrowingFacts.

Context {K V : Type} {C : Compare K} {G : GrowthPolicy}
        {T : CopyConstruct (value_type K V)}.

Local Abbreviation entry := (value_type K V).
Local Abbreviation fmap := (flat_map K V).

Ltac unfold_monad :=
  unfold bind, gets, ret, modify, throw, throw_out_of_range, try_catch in *.

(** [emplace] throws exactly when it has to construct an element whose
    construction throws; the container is then as it was. *)
Lemma emplace_exn_eq (x : entry) (m : fmap) :
  emplace_exn x m
  = if snd (snd (emplace x m)) && copy_throws x
    then Throws _ construction_error m
    else Returns (snd (emplace x m)) (fst (emplace x m)).
Proof.
  unfold emplace_exn, emplace, vector_emplace_exn, lower_bound. unfold_monad.
  destruct (nth_error (m_data m) (std_lower_bound (m_data m) (fst x))) as [e|];
    [destruct (key_compare (fst x) (fst e))|];
    cbn [fst snd andb]; destruct (copy_throws x); reflexivity.
Qed.

Lemma emplace_while_full_exn_spec (input : list entry) :
  forall (m : fmap),
    match emplace_while_full_exn input m with
    | Returns rest m' =>
        exists consumed,
          input = consumed ++ rest /\
          m' = emplace_each m consumed /\
          (rest <> [] -> m_unused m' <> 0)
    | Throws _ e m' =>
        e = construction_error /\
        exists consumed rest,
          input = consumed ++ rest /\ rest <> [] /\
          m' = emplace_each m consumed
    end.
Proof.
  induction input as [|x input IH]; intros m; cbn [emplace_while_full_exn].
  - unfold_monad. exists []. repeat split. congruence.
  - unfold bind at 1. unfold gets at 1.
    destruct (size m =? capacity m) eqn:Hfull.
    + unfold bind. rewrite emplace_exn_eq.
      destruct (snd (snd (emplace x m)) && copy_throws x).
      * split; [reflexivity|]. exists [], (x :: input).
        repeat split. congruence.
      * specialize (IH (fst (emplace x m))).
        destruct (emplace_while_full_exn input (fst (emplace x m)))
          as [rest m'|e m'].
        -- destruct IH as [consumed [-> [-> Hfree]]].
           exists (x :: consumed). repeat split. exact Hfree.
        -- destruct IH as [-> [consumed [rest [-> [Hrest ->]]]]].
           split; [reflexivity|]. exists (x :: consumed), rest.
           repeat split. exact Hrest.
    + unfold ret. exists []. repeat split.
      intros _ Hzero. apply full_iff in Hzero. congruence.
Qed.

Lemma emplace_until_inserted_exn_spec (input : list entry) :
  forall (m : fmap),
    match emplace_until_inserted_exn input m with
    | Returns rest m' =>
        exists consumed,
          input = consumed ++ rest /\
          m' = emplace_each m consumed /\
          (input <> [] -> consumed <> [])
    | Throws _ e m' =>
        e = construction_error /\
        exists consumed rest,
          input = consumed ++ rest /\ rest <> [] /\
          m' = emplace_each m consumed
    end.
Proof.
  induction input as [|x input IH]; intros m;
    cbn [emplace_until_inserted_exn].
  - unfold_monad. exists []. repeat split. congruence.
  - unfold bind. rewrite emplace_exn_eq.
    destruct (snd (snd (emplace x m)) && copy_throws x).
    + split; [reflexivity|]. exists [], (x :: input). repeat split. congruence.
    + destruct (snd (snd (emplace x m))) eqn:Hinserted.
      * unfold ret. exists [x]. repeat split. congruence.
      * specialize (IH (fst (emplace x m))).
        destruct (emplace_until_inserted_exn input (fst (emplace x m)))
          as [rest m'|e m'].
        -- destruct IH as [consumed [-> [-> _]]].
           exists (x :: consumed). repeat split. congruence.
        -- destruct IH as [-> [consumed [rest [-> [Hrest ->]]]]].
           split; [reflexivity|]. exists (x :: consumed), rest.
           repeat split. exact Hrest.
Qed.

(** The [try] block: whether it returns or throws, the old entries are
    still in front and no reallocation has happened. *)
Lemma append_chunk_exn_spec (input : list entry) :
  forall i size_before (m : fmap),
    i = size_before + m_unused m ->
    match append_chunk_exn i size_before input m with
    | Returns rest m' =>
        exists batch,
          input = batch ++ rest /\
          m_data m' = m_data m ++ batch /\
          m_unused m = m_unused m' + length batch /\
          (m_unused m <> 0 -> input <> [] -> batch <> [])
    | Throws _ e m' =>
        e = construction_error /\
        exists appended poisoned rest,
          input = appended ++ poisoned :: rest /\
          copy_throws poisoned = true /\
          m_data m' = m_data m ++ appended /\
          m_unused m = m_unused m' + length appended
    end.
Proof.
  induction input as [|x input IH]; intros i size_before m Hi;
    cbn [append_chunk_exn].
  - unfold ret. exists []. simpl.
    repeat split; rewrite ?app_nil_r; try lia; congruence.
  - destruct (size_before <? i) eqn:Hroom.
    + apply Nat.ltb_lt in Hroom.
      destruct (m_unused m) as [|free] eqn:Hunused; [lia|].
      unfold bind, vector_emplace_back_exn.
      destruct (copy_throws x) eqn:Hthrows.
      * unfold throw. split; [reflexivity|]. exists [], x, input. simpl.
        repeat split; rewrite ?app_nil_r; try lia; congruence.
      * unfold modify.
        specialize (IH (i - 1) size_before (vector_emplace_back x m)).
        cbn [vector_emplace_back m_data m_unused] in IH.
        rewrite Hunused in IH. specialize (IH ltac:(lia)).
        destruct (append_chunk_exn (i - 1) size_before input
                    (vector_emplace_back x m)) as [rest m'|e m'].
        -- destruct IH as [batch [-> [Hdata [Hfree _]]]].
           exists (x :: batch). repeat split.
           ++ rewrite Hdata, <- app_assoc. reflexivity.
           ++ cbn [length]. lia.
           ++ congruence.
        -- destruct IH as [-> [appended [p [rest [-> [Hp [Hdata Hfree]]]]]]].
           split; [reflexivity|]. exists (x :: appended), p, rest.
           repeat split; [exact Hp| |cbn [length]; lia].
           rewrite Hdata, <- app_assoc. reflexivity.
    + apply Nat.ltb_ge in Hroom. unfold ret. exists []. simpl.
      repeat split; rewrite ?app_nil_r; try lia; congruence.
Qed.

(** The loop of the [catch] block takes the appended elements off again. *)
Lemma pop_back_loop_spec (appended : list entry) :
  forall (old : list entry) unused,
    pop_back_loop (length old + length appended) (length old)
      {| m_data := old ++ appended; m_unused := unused |}
    = Returns tt {| m_data := old; m_unused := unused + length appended |}.
Proof.
  induction appended as [|z appended IH] using rev_ind; intros old unused.
  - simpl. rewrite !Nat.add_0_r, app_nil_r.
    destruct (length old) as [|n] eqn:Hlen; simpl; [reflexivity|].
    destruct (Nat.ltb_spec (S n) (S n)); [lia|reflexivity].
  - rewrite length_app. cbn [length]. rewrite Nat.add_1_r, Nat.add_succ_r.
    cbn [pop_back_loop].
    destruct (Nat.ltb_spec (length old) (S (length old + length appended)));
      [|lia].
    unfold_monad. unfold vector_pop_back. cbn [m_data m_unused].
    rewrite app_assoc, removelast_last, IH. do 2 f_equal. lia.
Qed.

(** Lines 391-404: an exception of the [try] block leaves with the
    container as it was when the block was entered. *)
Lemma guarded_append_eq (input : list entry) (m : fmap) :
  guarded_append (size m) input m
  = match append_chunk_exn (capacity m) (size m) input m with
    | Returns rest m' => Returns rest m'
    | Throws _ e _ => Throws _ e m
    end.
Proof.
  unfold guarded_append. unfold bind at 1. unfold gets at 1.
  unfold try_catch.
  pose proof (@append_chunk_exn_spec input (capacity m) (size m) m eq_refl)
    as Hspec.
  destruct (append_chunk_exn (capacity m) (size m) input m) as [rest m'|e m'];
    [reflexivity|].
  destruct Hspec as [-> [appended [p [rest [_ [_ [Hdata Hfree]]]]]]].
  unfold bind at 1. unfold gets at 1. unfold bind.
  destruct m' as [data' unused']. cbn [m_data m_unused] in *.
  subst data'. unfold size at 1. cbn [m_data].
  rewrite length_app. unfold size.
  rewrite pop_back_loop_spec. unfold throw.
  destruct m as [data unused].
  cbn [m_data m_unused] in *. do 2 f_equal. lia.
Qed.

Lemma guarded_append_spec (input : list entry) (m : fmap) :
  match guarded_append (size m) input m with
  | Returns rest m' =>
      exists batch,
        input = batch ++ rest /\
        m_data m' = m_data m ++ batch /\
        m_unused m = m_unused m' + length batch /\
        (m_unused m <> 0 -> input <> [] -> batch <> [])
  | Throws _ e m' => e = construction_error /\ m' = m
  end.
Proof.
  rewrite guarded_append_eq.
  pose proof (@append_chunk_exn_spec input (capacity m) (size m) m eq_refl)
    as Hspec.
  destruct (append_chunk_exn (capacity m) (size m) input m) as [rest m'|e m'].
  - exact Hspec.
  - split; [tauto|reflexivity].
Qed.

(** *** When nothing throws *)

Lemma emplace_exn_no_throw (x : entry) (m : fmap) :
  copy_throws x = false ->
  emplace_exn x m = Returns (snd (emplace x m)) (fst (emplace x m)).
Proof.
  intros Hx. rewrite emplace_exn_eq, Hx, andb_false_r. reflexivity.
Qed.

Lemma emplace_while_full_exn_no_throw (input : list entry) :
  forall (m : fmap),
    never_throws input ->
    emplace_while_full_exn input m
    = Returns (snd (emplace_while_full m input))
        (fst (emplace_while_full m input)).
Proof.
  induction input as [|x input IH]; intros m Hsafe;
    cbn [emplace_while_full_exn emplace_while_full]; [reflexivity|].
  apply Forall_cons_iff in Hsafe. destruct Hsafe as [Hx Hsafe].
  unfold bind at 1. unfold gets at 1.
  destruct (size m =? capacity m); [|reflexivity].
  unfold bind. rewrite emplace_exn_no_throw by exact Hx. apply IH, Hsafe.
Qed.

Lemma append_chunk_exn_no_throw (input : list entry) :
  forall i size_before (m : fmap),
    never_throws input ->
    append_chunk_exn i size_before input m
    = Returns (snd (append_chunk i size_before m input))
        (fst (append_chunk i size_before m input)).
Proof.
  induction input as [|x input IH]; intros i size_before m Hsafe;
    cbn [append_chunk_exn append_chunk]; [reflexivity|].
  apply Forall_cons_iff in Hsafe. destruct Hsafe as [Hx Hsafe].
  destruct (size_before <? i); [|reflexivity].
  unfold bind, vector_emplace_back_exn. rewrite Hx. unfold modify.
  apply IH, Hsafe.
Qed.

Lemma emplace_until_inserted_exn_no_throw (input : list entry) :
  forall (m : fmap),
    never_throws input ->
    emplace_until_inserted_exn input m
    = Returns (snd (emplace_until_inserted m input))
        (fst (emplace_until_inserted m input)).
Proof.
  induction input as [|x input IH]; intros m Hsafe;
    cbn [emplace_until_inserted_exn emplace_until_inserted]; [reflexivity|].
  apply Forall_cons_iff in Hsafe. destruct Hsafe as [Hx Hsafe].
  unfold bind. rewrite emplace_exn_no_throw by exact Hx.
  destruct (emplace x m) as [m' [it inserted]]. cbn [fst snd].
  destruct inserted; [reflexivity|]. apply IH, Hsafe.
Qed.

(** *** How the loops end when a construction throws *)



(** *** A failure inside the first batch *)


End ThrowingFacts.


(** ** The fallback after a batch without new entries *)
Section FallbackFacts.

Context {K V : Type} {C : Compare K} {G : GrowthPolicy}.

Local Abbreviation entry := (value_type K V).
Local Abbreviation fmap := (flat_map K V).

Lemma emplace_not_inserted (x : entry) (m : fmap) :
  snd (snd (emplace x m)) = false -> fst (emplace x m) = m.
Proof.
  unfold emplace.
  destruct (nth_error (m_data m) (std_lower_bound (m_data m) (fst x)))
    as [e|]; [destruct (key_compare (fst x) (fst e))|];
    cbn [fst snd]; congruence.
Qed.

(** [emplace_until_inserted] skips the elements that [emplace] rejects and
    stops behind the first one it inserts. *)
Lemma emplace_until_inserted_cases (input : list entry) (m : fmap) :
  exists rejected,
    Forall (fun x => snd (snd (emplace x m)) = false) rejected /\
    ((input = rejected /\ emplace_until_inserted m input = (m, [])) \/
     (exists x rest,
        input = rejected ++ x :: rest /\
        snd (snd (emplace x m)) = true /\
        emplace_until_inserted m input = (fst (emplace x m), rest))).
Proof.
  induction input as [|x input IH]; cbn [emplace_until_inserted].
  - exists []. split; [constructor|]. left. auto.
  - destruct (emplace x m) as [m1 [it inserted]] eqn:Hemplace.
    destruct inserted.
    + exists []. split; [constructor|]. right. exists x, input.
      rewrite Hemplace. auto.
    + assert (Hrejected : snd (snd (emplace x m)) = false)
        by (rewrite Hemplace; reflexivity).
      pose proof (emplace_not_inserted _ _ Hrejected) as Hsame.
      rewrite Hemplace in Hsame. cbn [fst] in Hsame. subst m1.
      destruct IH as [rejected [Hall [[-> Hrun]|[y [rest [-> [Hy Hrun]]]]]]].
      * exists (x :: rejected). split; [constructor; assumption|]. left. auto.
      * exists (x :: rejected). split; [constructor; assumption|].
        right. exists y, rest. auto.
Qed.

End FallbackFacts.

(** * The claims *)
Section Claims.

Context {K V : Type} {C : Compare K} {SWO : StrictWeakOrder C}
        {G : GrowthPolicy} {T : CopyConstruct (value_type K V)}
        {DK : Default K} {DV : Default V}.

Local Abbreviation entry := (value_type K V).
Local Abbreviation fmap := (flat_map K V).

Lemma erase_key_total (key : K) (m : fmap) :
  exists m' n, erase_key key m = Some (m', n) /\
               (m' = m \/ exists it, it < size m /\ m' = vector_erase it m).
Proof.
  unfold erase_key, erase, find, end_, size.
  destruct (Nat.eqb_spec (binary_find (m_data m) key) (length (m_data m)))
    as [Heq|Hne].
  - eauto.
  - pose proof (binary_find_lt _ _ Hne) as Hlt.
    destruct (Nat.ltb_spec (binary_find (m_data m) key) (length (m_data m)));
      [|lia].
    do 2 eexists. split; [reflexivity|]. right. eauto.
Qed.

(** C1, with bulk insertion apart.  Each of the eleven mutations that can
    be instantiated ([operator[]], [insert] of a value with and without
    hint, [emplace] and [emplace_hint] with and without arguments, the
    three [erase] overloads, [clear]), called on a container that satisfies
    I1 with iterators of that container, returns a container whose entries
    are strictly ascending by key and in which no two entries have
    equivalent keys.  The twelfth, bulk [insert], has no instantiation:
    line 410 applies [std::not2] to a [value_compare], which lacks the
    argument types, so a call of it has no result. *)
Theorem mutations_preserve_I1 (op : mutation K V) (m : fmap) :
  I1 m -> valid_call op m ->
  match op with
  | InsertRange input =>
      @insert_range K V C G = IllFormed /\ run op m = None
  | _ => exists m', run op m = Some m' /\ I1 m' /\ unique_keys m'
  end.
Proof.
  intros Hm Hvalid.
  assert (Hgoal :
    (forall input, op <> InsertRange input) ->
    exists m', run op m = Some m' /\ I1 m').
  { intros Hop. destruct op; cbn [run valid_call] in *.
    - rewrite subscript_emplace. eexists. split; [reflexivity|].
      apply emplace_I1, Hm.
    - eexists. split; [reflexivity|]. apply emplace_I1, Hm.
    - unfold insert_hint. rewrite emplace_hint_emplace by assumption.
      eexists. split; [reflexivity|]. apply emplace_I1, Hm.
    - exfalso. apply (Hop input). reflexivity.
    - eexists. split; [reflexivity|]. apply emplace_I1, Hm.
    - eexists. split; [reflexivity|]. apply emplace_I1, Hm.
    - rewrite emplace_hint_emplace by assumption.
      eexists. split; [reflexivity|]. apply emplace_I1, Hm.
    - rewrite emplace_hint_emplace by assumption.
      eexists. split; [reflexivity|]. apply emplace_I1, Hm.
    - unfold erase. destruct (Nat.ltb_spec it (size m)); [|lia].
      eexists. split; [reflexivity|].
      apply vector_erase_range_I1; [lia|exact Hm].
    - destruct (erase_key_total key m) as [m' [n [-> Hcases]]].
      eexists. split; [reflexivity|]. cbn [fst].
      destruct Hcases as [->|[it [_ ->]]]; [exact Hm|].
      apply vector_erase_range_I1; [lia|exact Hm].
    - unfold erase_range.
      destruct (Nat.leb_spec first last); [|lia].
      destruct (Nat.leb_spec last (size m)); [|lia].
      eexists. split; [reflexivity|].
      apply vector_erase_range_I1; [lia|exact Hm].
    - eexists. split; [reflexivity|]. apply clear_I1. }
  destruct op;
    try (destruct Hgoal as [m' [Hrun Hm']];
         [discriminate|exists m'; auto using I1_unique_keys]).
  split; reflexivity.
Qed.

(** C2, at the code as it is.  [std::not2] has no value at a
    [value_compare], so [insert(begin, end)] has no instantiation, nor have
    [insert(initializer_list)] and the two constructors whose bodies call
    it; a call of bulk [insert] has no result, and so no final entry
    sequence that could be compared with the one that one [emplace] per
    element builds. *)
Theorem insert_range_has_no_instantiation (m : fmap) (input : list entry) :
  std_not2 (@value_compare_object K V C) = None /\
  @insert_range K V C G = IllFormed /\
  @insert_init_list K V C G = IllFormed /\
  @flat_map_range K V C G = IllFormed /\
  @flat_map_init_list K V C G = IllFormed /\
  call_instance insert_range m input = None.
Proof. repeat split. Qed.


(** C5.  When a construction throws inside the chunked append, the elements
    appended so far stand behind the unchanged old entries, the handler takes
    exactly them off again, and the exception leaves with the container as
    it was before the append step. *)
Theorem append_failure_rolls_back (m : fmap) (input : list entry) (e : exn)
  (m_thrown : fmap) :
  append_chunk_exn (capacity m) (size m) input m = Throws _ e m_thrown ->
  (exists appended,
      m_data m_thrown = m_data m ++ appended /\
      pop_back_loop (size m_thrown) (size m) m_thrown = Returns tt m) /\
  guarded_append (size m) input m = Throws _ e m.
Proof.
  intros Hthrown.
  pose proof (append_chunk_exn_spec input (i := capacity m) (size m) m
                eq_refl) as Hspec.
  rewrite Hthrown in Hspec.
  destruct Hspec as [-> [appended [p [rest [_ [_ [Hdata Hfree]]]]]]].
  split.
  - exists appended. split; [exact Hdata|].
    destruct m_thrown as [data' unused']. destruct m as [data unused].
    cbn [m_data m_unused] in *. subst data'. unfold size. cbn [m_data].
    rewrite length_app, pop_back_loop_spec. do 2 f_equal. lia.
  - rewrite guarded_append_eq, Hthrown. reflexivity.
Qed.

(** C6, as amended.  When the container comes out of line 410 with the
    size it had before the batch, lines 412-417 call [emplace] on the
    remaining input elements one after the other: they pass over every
    element that [emplace] rejects and stop behind the first one that is
    inserted, or at the end of the input when none is; with any other size
    they touch neither the container nor the input. *)
Theorem stuck_batch_emplaces_until_inserted (size_before : nat) (m : fmap)
  (input : list entry) :
  (size m = size_before ->
   exists rejected,
     Forall (fun x => snd (snd (emplace x m)) = false) rejected /\
     ((input = rejected /\
       stuck_batch_fallback size_before m input = (m, [])) \/
      (exists x rest,
         input = rejected ++ x :: rest /\
         snd (snd (emplace x m)) = true /\
         stuck_batch_fallback size_before m input
         = (fst (emplace x m), rest)))) /\
  (size m <> size_before ->
   stuck_batch_fallback size_before m input = (m, input)).
Proof.
  unfold stuck_batch_fallback. split.
  - intros ->. rewrite Nat.eqb_refl. apply emplace_until_inserted_cases.
  - intros Hsize. apply Nat.eqb_neq in Hsize. rewrite Hsize. reflexivity.
Qed.

(** C7.  On a container that satisfies I1, [at] throws [out_of_range]
    exactly when no entry has a key equivalent to the requested one;
    otherwise it returns the position of an entry with an equivalent key; in
    both cases the container is left as it was. *)
Theorem at_throws_iff_absent (key : K) (m : fmap) :
  I1 m ->
  (at_ key m = Throws _ out_of_range m <-> ~ has_key key m) /\
  (has_key key m ->
   exists pos e,
     at_ key m = Returns pos m /\
     nth_error (m_data m) pos = Some e /\
     equivalent (fst e) key = true) /\
  final_state (at_ key m) = m.
Proof.
  intros Hm. pose proof (binary_find_end_iff key Hm) as Hend.
  unfold at_, bind, gets, ret, throw_out_of_range, throw.
  destruct (Nat.eqb_spec (find key m) (end_ m)) as [Heq|Hne].
  - split; [|split]; [|intros Hkey; apply Hend in Heq; contradiction|reflexivity].
    split; [intros _; apply Hend, Heq|reflexivity].
  - split; [|split]; [split; [discriminate|] | |reflexivity].
    + intros Hno. apply Hend in Hno. contradiction.
    + intros _. unfold find, end_, size in *.
      pose proof (binary_find_lt _ _ Hne) as Hlt.
      destruct (nth_error (m_data m) (binary_find (m_data m) key))
        as [e|] eqn:He; [|apply nth_error_None in He; lia].
      exists (binary_find (m_data m) key), e.
      repeat split; [exact He|]. eapply binary_find_found; eauto.
Qed.

(** C8.  On a container that satisfies I1 and for a hint between [begin()]
    and [end()], [emplace_hint] returns the container and the iterator that
    plain [emplace] returns; the candidate is inserted exactly when no entry
    has an equivalent key; the iterator designates an entry with a key
    equivalent to the candidate's; and when the entry at the hint is
    equivalent to the candidate nothing is inserted and the hint itself is
    returned. *)
Theorem emplace_hint_refines_emplace (hint : nat) (x : entry) (m : fmap) :
  I1 m -> hint <= size m ->
  exists m' it,
    emplace_hint hint x m = Some (m', it) /\
    m' = fst (emplace x m) /\
    it = fst (snd (emplace x m)) /\
    (~ has_key (fst x) m ->
     m_data m' = firstn it (m_data m) ++ x :: skipn it (m_data m)) /\
    (has_key (fst x) m -> m' = m) /\
    (exists e, nth_error (m_data m') it = Some e /\
               equivalent (fst e) (fst x) = true) /\
    (forall h, nth_error (m_data m) hint = Some h ->
               equivalent (fst h) (fst x) = true ->
               m' = m /\ it = hint).
Proof.
  intros Hm Hhint.
  exists (fst (emplace x m)), (fst (snd (emplace x m))).
  split; [apply emplace_hint_emplace; assumption|].
  split; [reflexivity|]. split; [reflexivity|].
  pose proof (emplace_inserted_iff x Hm) as Hiff.
  destruct (snd (snd (emplace x m))) eqn:Hinserted.
  - destruct (emplace_inserted _ _ Hinserted) as [Hstate [Hit Hnth]].
    split; [intros _; rewrite Hstate, Hit; reflexivity|].
    split; [intros Hkey; apply Hiff in Hkey; [contradiction|reflexivity]|].
    split.
    + exists x. split; [exact Hnth|].
      apply equivalent_iff. split; apply comp_irrefl.
    + intros h Hh Hequiv. exfalso. apply (proj1 Hiff eq_refl). exists h.
      split; [eapply nth_error_In; eauto|assumption].
  - destruct (emplace_rejected _ _ Hinserted) as [Hstate [e [Hnth Heq]]].
    split; [intros Hno; apply Hiff in Hno; discriminate|].
    split; [intros _; exact Hstate|].
    split; [exists e; rewrite Hstate; auto|].
    intros h Hh Hequiv. split; [exact Hstate|].
    apply equivalent_iff in Hequiv. destruct Hequiv as [Hhx Hxh].
    rewrite (@emplace_at_equivalent _ _ _ _ _ x h m hint); auto.
Qed.

(** C9, at the code as it is.  Bulk [insert] has no instantiation, so no
    call of it runs to an end.  What its body does around line 410 makes
    progress: a pass that finds input left behind the loop of lines 384-386
    appends at least one element of it in lines 394-396, and lines 411-418
    hand on no more input than they were given. *)
Theorem insert_pass_consumes_input (m : fmap) (input : list entry) :
  @insert_range K V C G = IllFormed /\
  (forall m1 input1 m2 input2,
      emplace_while_full m input = (m1, input1) -> input1 <> [] ->
      append_chunk (capacity m1) (size m1) m1 input1 = (m2, input2) ->
      length input2 < length input1 <= length input) /\
  (forall size_before m3 m4 input4,
      stuck_batch_fallback size_before m3 input = (m4, input4) ->
      length input4 <= length input).
Proof.
  split; [reflexivity|]. split.
  - intros m1 input1 m2 input2 Hfull Hinput1 Happend.
    apply emplace_while_full_spec in Hfull.
    destruct Hfull as [consumed [-> [_ Hfree]]].
    apply append_chunk_spec in Happend; [|reflexivity].
    destruct Happend as [batch [-> [_ [_ Hbatch]]]].
    specialize (Hbatch (Hfree Hinput1) Hinput1).
    rewrite !length_app. destruct batch; [congruence|]. simpl. lia.
  - intros size_before m3 m4 input4. unfold stuck_batch_fallback.
    destruct (size m3 =? size_before).
    + intros Hrun. apply emplace_until_inserted_spec in Hrun.
      destruct Hrun as [consumed [-> _]]. rewrite length_app. lia.
    + intros Hrun. injection Hrun as <- <-. lia.
Qed.

(** C10.  On a container that satisfies I1, [emplace()] inserts the pair of
    the default key and the default value exactly when no entry has a key
    equivalent to the default key; the flag it returns tells whether it
    inserted, the position it returns designates the entry with that key
    (the new entry when it inserted), and the container is unchanged when it
    did not insert. *)
Theorem emplace_default_inserts_iff_absent (m : fmap) :
  I1 m ->
  exists m' it inserted,
    emplace_default m = (m', (it, inserted)) /\
    (inserted = true <-> ~ has_key default_value m) /\
    (inserted = true ->
     m_data m'
     = firstn it (m_data m)
       ++ (default_value, default_value) :: skipn it (m_data m) /\
     nth_error (m_data m') it = Some (default_value, default_value)) /\
    (inserted = false -> m' = m) /\
    (exists e, nth_error (m_data m') it = Some e /\
               equivalent (fst e) default_value = true).
Proof.
  intros Hm. unfold emplace_default.
  pose proof (emplace_inserted_iff (default_value, default_value) Hm) as Hiff.
  pose proof (@emplace_inserted K V C G (default_value, default_value) m)
    as Hyes.
  pose proof (@emplace_rejected K V C G (default_value, default_value) m)
    as Hno.
  destruct (emplace (default_value, default_value) m)
    as [m' [it inserted]] eqn:Hemplace.
  cbn [fst snd] in *. exists m', it, inserted.
  split; [reflexivity|]. split; [exact Hiff|].
  destruct inserted.
  - destruct (Hyes eq_refl) as [-> [-> Hnth]].
    repeat split; try discriminate; try exact Hnth.
    exists (default_value, default_value). split; [exact Hnth|].
    apply equivalent_iff. split; apply comp_irrefl.
  - destruct (Hno eq_refl) as [-> [e [Hnth Heq]]].
    repeat split; try discriminate. exists e. auto.
Qed.

End Claims.

(** ** Traversal *)
Section TraversalFacts.

Context {K V : Type}.

Local Abbreviation entry := (value_type K V).
Local Abbreviation fmap := (flat_map K V).

Lemma traverse_suffix (m : fmap) (todo : list entry) :
  forall (done : list entry) fuel,
    m_data m = done ++ todo -> length todo <= fuel ->
    traverse fuel m (length done) (length (m_data m)) = Some todo.
Proof.
  induction todo as [|x todo IH]; intros done fuel Hdata Hfuel.
  - rewrite Hdata, app_nil_r. destruct fuel; simpl; rewrite Nat.eqb_refl;
      reflexivity.
  - destruct fuel as [|fuel]; [simpl in Hfuel; lia|].
    cbn [traverse].
    destruct (Nat.eqb_spec (length done) (length (m_data m))) as [Heq|_].
    { rewrite Hdata, length_app in Heq. simpl in Heq. lia. }
    rewrite Hdata at 1. rewrite nth_error_app2, Nat.sub_diag by lia.
    cbn [nth_error].
    replace (S (length done)) with (length (done ++ [x]))
      by (rewrite length_app; simpl; lia).
    rewrite (IH (done ++ [x]) fuel);
      [reflexivity|rewrite <- app_assoc; exact Hdata|simpl in Hfuel; lia].
Qed.

Lemma traverse_reverse_prefix (m : fmap) (todo : list entry) :
  forall (done : list entry) fuel,
    m_data m = todo ++ done -> length todo <= fuel ->
    traverse_reverse fuel m {| base := length todo |} {| base := 0 |}
    = Some (rev todo).
Proof.
  induction todo as [|x todo IH] using rev_ind; intros done fuel Hdata Hfuel.
  - destruct fuel; reflexivity.
  - rewrite length_app in Hfuel. simpl in Hfuel.
    destruct fuel as [|fuel]; [lia|].
    rewrite length_app. cbn [length]. rewrite Nat.add_1_r.
    cbn [traverse_reverse base Nat.eqb].
    rewrite Hdata, <- app_assoc.
    rewrite nth_error_app2, Nat.sub_diag by lia. cbn [nth_error app].
    rewrite <- app_assoc in Hdata.
    rewrite (IH (x :: done) fuel Hdata) by lia.
    rewrite rev_app_distr. reflexivity.
Qed.

(** C4.  Forward traversal visits the entries in ascending order, through
    the mutable and the const interface, and so does reverse traversal in
    descending order through [rbegin()]/[rend()] and [crbegin()]/[crend()];
    through the const [rbegin()]/[rend()] the traversal visits nothing,
    whatever the container holds. *)
Theorem const_reverse_traversal_visits_nothing (m : fmap) :
  traverse (size m) m (begin_ m) (end_ m) = Some (m_data m) /\
  traverse (size m) m (begin_const m) (end_const m) = Some (m_data m) /\
  traverse (size m) m (cbegin m) (cend m) = Some (m_data m) /\
  traverse_reverse (size m) m (rbegin m) (rend m) = Some (rev (m_data m)) /\
  traverse_reverse (size m) m (crbegin m) (crend m) = Some (rev (m_data m)) /\
  traverse_reverse (size m) m (rbegin_const m) (rend_const m) = Some [].
Proof.
  pose proof (@traverse_suffix m (m_data m) [] (size m) eq_refl (le_n _))
    as Hforward.
  pose proof (@traverse_reverse_prefix m (m_data m) [] (size m)
                (eq_sym (app_nil_r _)) (le_n _)) as Hreverse.
  repeat split; try exact Hforward; try exact Hreverse.
  unfold rbegin_const, rend_const. destruct (size m); simpl;
    rewrite Nat.eqb_refl; reflexivity.
Qed.

End TraversalFacts.

(** * The instance [flat_map<unsigned, unsigned>] *)
Module ExampleFacts.

Import Example.

#[export] Instance nat_less_swo : StrictWeakOrder nat_less.
Proof.
  split; unfold key_compare, nat_less.
  - intros a. apply Nat.ltb_irrefl.
  - intros a b c Hab Hbc. apply Nat.ltb_lt in Hab, Hbc. apply Nat.ltb_lt. lia.
  - intros a b c Hac. apply Nat.ltb_lt in Hac.
    destruct (Nat.ltb_spec a b); [now left|right]. apply Nat.ltb_lt. lia.
Qed.

Lemma three_entries_I1 : I1 three_entries.
Proof. repeat constructor. Qed.

Lemma one_entry_I1 : I1 one_entry.
Proof. repeat constructor. Qed.

Lemma fresh_I1 : I1 fresh.
Proof. constructor. Qed.

(** The round trip of the specification, one [emplace] at a time:
    [{(3,c), (1,a), (2,b)}] comes out in key order, and the first of two
    equal keys wins.  The same elements handed to bulk [insert] give no
    result, because there is no such function. *)
Example emplace_each_round_trip :
  emplace_each fresh [(3, 30); (1, 10); (2, 20)]
  = {| m_data := [(1, 10); (2, 20); (3, 30)]; m_unused := 1 |}.
Proof. reflexivity. Qed.

Example emplace_each_first_wins :
  m_data (emplace_each fresh [(1, 10); (1, 11)]) = [(1, 10)].
Proof. reflexivity. Qed.

Example insert_range_round_trip_has_no_result :
  run (InsertRange [(3, 30); (1, 10); (2, 20)]) fresh = None.
Proof. reflexivity. Qed.

Lemma mutations_preserve_I1_witness :
  I1 three_entries /\
  valid_call (EmplaceHint 1 (2, 20)) three_entries /\
  exists m',
    run (EmplaceHint 1 (2, 20)) three_entries = Some m' /\
    I1 m' /\ unique_keys m'.
Proof.
  assert (Hm : I1 three_entries) by (repeat constructor).
  assert (Hvalid : valid_call (EmplaceHint 1 (2, 20)) three_entries)
    by (vm_compute; lia).
  split; [exact Hm|]. split; [exact Hvalid|].
  exact (mutations_preserve_I1 (EmplaceHint 1 (2, 20)) Hm Hvalid).
Defined.

Lemma insert_range_has_no_instantiation_witness :
  std_not2 (@value_compare_object nat nat nat_less) = None /\
  @insert_range nat nat nat_less doubling = IllFormed /\
  @insert_init_list nat nat nat_less doubling = IllFormed /\
  @flat_map_range nat nat nat_less doubling = IllFormed /\
  @flat_map_init_list nat nat nat_less doubling = IllFormed /\
  call_instance insert_range one_entry [(3, 30); (1, 11); (2, 20); (3, 31)]
  = None.
Proof.
  exact (insert_range_has_no_instantiation one_entry
           [(3, 30); (1, 11); (2, 20); (3, 31)]).
Defined.


(** A failure inside the first appended batch of a call that found the
    vector full: the three elements that went in through [emplace] stay. *)
Example failure_in_first_batch_keeps_emplaced_entries :
  insert_until_merge_exn [(1, 10); (2, 20); (3, 30); (4, 666)] fresh
  = Throws _ construction_error
      {| m_data := [(1, 10); (2, 20); (3, 30)]; m_unused := 1 |}.
Proof. reflexivity. Qed.


Lemma append_failure_rolls_back_witness :
  append_chunk_exn (capacity three_entries) (size three_entries)
    [(2, 20); (4, 666); (6, 60)] three_entries
  = Throws _ construction_error
      {| m_data := [(1, 10); (3, 30); (5, 50); (2, 20)]; m_unused := 1 |} /\
  ((exists appended,
       [(1, 10); (3, 30); (5, 50); (2, 20)]
       = m_data three_entries ++ appended /\
       pop_back_loop 4 (size three_entries)
         {| m_data := [(1, 10); (3, 30); (5, 50); (2, 20)]; m_unused := 1 |}
       = Returns tt three_entries) /\
   guarded_append (size three_entries) [(2, 20); (4, 666); (6, 60)]
     three_entries
   = Throws _ construction_error three_entries).
Proof.
  assert (Hthrown :
    append_chunk_exn (capacity three_entries) (size three_entries)
      [(2, 20); (4, 666); (6, 60)] three_entries
    = Throws _ construction_error
        {| m_data := [(1, 10); (3, 30); (5, 50); (2, 20)]; m_unused := 1 |})
    by reflexivity.
  split; [exact Hthrown|].
  exact (append_failure_rolls_back three_entries [(2, 20); (4, 666); (6, 60)]
           Hthrown).
Defined.

(** C6, as the specification states it, fails: entered with the size of
    before the batch, the fallback passes over the rejected [(1, 12)] and
    handles [(2, 20)] as well. *)
Lemma stuck_batch_takes_two :
  size one_entry = 1 /\
  stuck_batch_fallback 1 one_entry [(1, 12); (2, 20); (3, 30)]
  = ({| m_data := [(1, 10); (2, 20)]; m_unused := 0 |}, [(3, 30)]) /\
  ~ stuck_batch_takes_one 1 one_entry [(1, 12); (2, 20); (3, 30)].
Proof.
  split; [reflexivity|]. split; [reflexivity|].
  unfold stuck_batch_takes_one. intros Hone.
  destruct (Hone eq_refl) as [x [rest [Hinput Hbatch]]].
  injection Hinput as <- <-. discriminate Hbatch.
Qed.

(** One element is handled, and it is rejected, when the only element left
    has a key that is present. *)
Example stuck_batch_may_insert_nothing :
  stuck_batch_fallback 1 one_entry [(1, 12)] = (one_entry, []).
Proof. reflexivity. Qed.

Lemma stuck_batch_emplaces_until_inserted_witness :
  size one_entry = 1 /\
  exists rejected,
    Forall (fun x => snd (snd (emplace x one_entry)) = false) rejected /\
    (([(1, 12); (2, 20); (3, 30)] = rejected /\
      stuck_batch_fallback 1 one_entry [(1, 12); (2, 20); (3, 30)]
      = (one_entry, [])) \/
     (exists x rest,
        [(1, 12); (2, 20); (3, 30)] = rejected ++ x :: rest /\
        snd (snd (emplace x one_entry)) = true /\
        stuck_batch_fallback 1 one_entry [(1, 12); (2, 20); (3, 30)]
        = (fst (emplace x one_entry), rest))).
Proof.
  assert (Hsize : size one_entry = 1) by reflexivity.
  split; [exact Hsize|].
  exact (proj1 (stuck_batch_emplaces_until_inserted 1 one_entry
                  [(1, 12); (2, 20); (3, 30)]) Hsize).
Defined.

Lemma at_throws_iff_absent_witness :
  I1 three_entries /\
  ((at_ 3 three_entries = Throws _ out_of_range three_entries
    <-> ~ has_key 3 three_entries) /\
   (has_key 3 three_entries ->
    exists pos e,
      at_ 3 three_entries = Returns pos three_entries /\
      nth_error (m_data three_entries) pos = Some e /\
      equivalent (fst e) 3 = true) /\
   final_state (at_ 3 three_entries) = three_entries).
Proof.
  assert (Hm : I1 three_entries) by (repeat constructor).
  split; [exact Hm|].
  exact (at_throws_iff_absent 3 Hm).
Defined.

Lemma emplace_hint_refines_emplace_witness :
  I1 three_entries /\ 3 <= size three_entries /\
  exists m' it,
    emplace_hint 3 (2, 20) three_entries = Some (m', it) /\
    m' = fst (emplace (2, 20) three_entries) /\
    it = fst (snd (emplace (2, 20) three_entries)) /\
    (~ has_key (fst (2, 20)) three_entries ->
     m_data m'
     = firstn it (m_data three_entries)
       ++ (2, 20) :: skipn it (m_data three_entries)) /\
    (has_key (fst (2, 20)) three_entries -> m' = three_entries) /\
    (exists e, nth_error (m_data m') it = Some e /\
               equivalent (fst e) (fst (2, 20)) = true) /\
    (forall h, nth_error (m_data three_entries) 3 = Some h ->
               equivalent (fst h) (fst (2, 20)) = true ->
               m' = three_entries /\ it = 3).
Proof.
  assert (Hm : I1 three_entries) by (repeat constructor).
  assert (Hhint : 3 <= size three_entries) by (vm_compute; lia).
  split; [exact Hm|]. split; [exact Hhint|].
  exact (emplace_hint_refines_emplace (2, 20) Hm Hhint).
Defined.

Lemma insert_pass_consumes_input_witness :
  @insert_range nat nat nat_less doubling = IllFormed /\
  (forall m1 input1 m2 input2,
      emplace_while_full one_entry [(1, 11); (1, 12); (2, 20)]
      = (m1, input1) ->
      input1 <> [] ->
      append_chunk (capacity m1) (size m1) m1 input1 = (m2, input2) ->
      length input2 < length input1 <= length [(1, 11); (1, 12); (2, 20)]) /\
  (forall size_before m3 m4 input4,
      stuck_batch_fallback size_before m3 [(1, 11); (1, 12); (2, 20)]
      = (m4, input4) ->
      length input4 <= length [(1, 11); (1, 12); (2, 20)]).
Proof.
  exact (insert_pass_consumes_input one_entry [(1, 11); (1, 12); (2, 20)]).
Defined.

Lemma emplace_default_inserts_iff_absent_witness :
  I1 three_entries /\
  exists m' it inserted,
    emplace_default three_entries = (m', (it, inserted)) /\
    (inserted = true <-> ~ has_key default_value three_entries) /\
    (inserted = true ->
     m_data m'
     = firstn it (m_data three_entries)
       ++ (default_value, default_value) :: skipn it (m_data three_entries) /\
     nth_error (m_data m') it = Some (default_value, default_value)) /\
    (inserted = false -> m' = three_entries) /\
    (exists e, nth_error (m_data m') it = Some e /\
               equivalent (fst e) default_value = true).
Proof.
  assert (Hm : I1 three_entries) by (repeat constructor).
  split; [exact Hm|].
  exact (emplace_default_inserts_iff_absent Hm).
Defined.

(** C4 at a container with three entries: the const reverse traversal comes
    back empty where the mutable one visits all three. *)
Example const_reverse_traversal_of_three :
  traverse_reverse 3 three_entries (rbegin three_entries) (rend three_entries)
  = Some [(5, 50); (3, 30); (1, 10)] /\
  traverse_reverse 3 three_entries (rbegin_const three_entries)
    (rend_const three_entries)
  = Some [].
Proof. split; reflexivity. Qed.

End ExampleFacts.

(** * The rest of the interface *)

(** ** Lookup *)
Section LookupFacts.

Context {K V : Type} {C : Compare K} {SWO : StrictWeakOrder C}
        {G : GrowthPolicy}.

Local Abbreviation entry := (value_type K V).
Local Abbreviation fmap := (flat_map K V).

Lemma equivalent_refl (a : K) : equivalent a a = true.
Proof. apply equivalent_iff. split; apply comp_irrefl. Qed.

Lemma equivalent_trans (a b c : K) :
  equivalent a b = true -> equivalent b c = true -> equivalent a c = true.
Proof.
  rewrite !equivalent_iff. intros [Hab Hba] [Hbc Hcb]. split.
  - destruct (key_compare a c) eqn:Hac; [|reflexivity].
    destruct (comp_negtrans _ b _ Hac); congruence.
  - destruct (key_compare c a) eqn:Hca; [|reflexivity].
    destruct (comp_negtrans _ b _ Hca); congruence.
Qed.

Lemma equivalent_left (a b k : K) :
  equivalent a b = true -> equivalent a k = equivalent b k.
Proof.
  intros Hab.
  destruct (equivalent a k) eqn:Hak, (equivalent b k) eqn:Hbk; try reflexivity.
  - rewrite equivalent_sym in Hab.
    rewrite (equivalent_trans _ _ _ Hab Hak) in Hbk. discriminate.
  - rewrite (equivalent_trans _ _ _ Hab Hbk) in Hak. discriminate.
Qed.

(** *** [std_upper_bound] *)

Lemma std_upper_bound_le (l : list entry) k : std_upper_bound l k <= length l.
Proof.
  induction l as [|e l IH]; simpl; [lia|].
  destruct (key_compare k (fst e)); lia.
Qed.

Lemma std_upper_bound_before (l : list entry) k i e :
  i < std_upper_bound l k -> nth_error l i = Some e ->
  key_compare k (fst e) = false.
Proof.
  revert i. induction l as [|e0 l IH]; simpl; intros i Hi Hnth; [lia|].
  destruct (key_compare k (fst e0)) eqn:He0; [lia|].
  destruct i as [|i]; simpl in Hnth.
  - injection Hnth as <-. assumption.
  - apply (IH i); auto. lia.
Qed.

Lemma std_upper_bound_at (l : list entry) k e :
  nth_error l (std_upper_bound l k) = Some e ->
  key_compare k (fst e) = true.
Proof.
  induction l as [|e0 l IH]; simpl; [discriminate|].
  destruct (key_compare k (fst e0)) eqn:He0; simpl; [|assumption].
  intros H. injection H as <-. assumption.
Qed.

Lemma std_upper_bound_after (l : list entry) k j e :
  strictly_ascending value_compare l ->
  std_upper_bound l k <= j -> nth_error l j = Some e ->
  key_compare k (fst e) = true.
Proof.
  intros Hl Hj Hnth.
  destruct (nth_error l (std_upper_bound l k)) as [e0|] eqn:Hub.
  - pose proof (std_upper_bound_at _ _ Hub) as He0.
    destruct (Nat.eq_dec (std_upper_bound l k) j) as [Heq|Hne].
    + rewrite Heq in Hub. congruence.
    + assert (Hlt : std_upper_bound l k < j) by lia.
      pose proof (strictly_ascending_nth Hl Hlt Hub Hnth) as H.
      unfold value_compare in H. eapply comp_trans; eauto.
  - apply nth_error_None in Hub.
    assert (j < length l) by (apply nth_error_Some; congruence). lia.
Qed.

Lemma lower_bound_iff (m : fmap) key i e :
  I1 m -> nth_error (m_data m) i = Some e ->
  (i < lower_bound key m <-> key_compare (fst e) key = true).
Proof.
  rewrite I1_strictly_ascending. intros Hm Hi. unfold lower_bound. split.
  - intros Hlt. eapply std_lower_bound_before; eauto.
  - intros He.
    destruct (Nat.lt_ge_cases i (std_lower_bound (m_data m) key))
      as [Hlt|Hge]; [assumption|].
    rewrite (std_lower_bound_after _ Hm Hge Hi) in He. discriminate.
Qed.

Lemma upper_bound_iff (m : fmap) key i e :
  I1 m -> nth_error (m_data m) i = Some e ->
  (i < upper_bound key m <-> key_compare key (fst e) = false).
Proof.
  rewrite I1_strictly_ascending. intros Hm Hi. unfold upper_bound. split.
  - intros Hlt. eapply std_upper_bound_before; eauto.
  - intros He.
    destruct (Nat.lt_ge_cases i (std_upper_bound (m_data m) key))
      as [Hlt|Hge]; [assumption|].
    rewrite (std_upper_bound_after _ Hm Hge Hi) in He. discriminate.
Qed.

(** The range between the two bounds holds the equivalent keys. *)
Lemma between_bounds_iff (m : fmap) key i e :
  I1 m -> nth_error (m_data m) i = Some e ->
  (lower_bound key m <= i < upper_bound key m
   <-> equivalent (fst e) key = true).
Proof.
  intros Hm Hi.
  pose proof (@lower_bound_iff m key i e Hm Hi) as Hlow.
  pose proof (@upper_bound_iff m key i e Hm Hi) as Hup.
  rewrite equivalent_iff. split.
  - intros [Hge Hlt]. split; [|apply Hup, Hlt].
    destruct (key_compare (fst e) key); [|reflexivity].
    assert (i < lower_bound key m) by (apply Hlow; reflexivity). lia.
  - intros [Hek Hke]. split; [|apply Hup, Hke].
    destruct (Nat.lt_ge_cases i (lower_bound key m)) as [Hlt|Hge];
      [|assumption].
    apply Hlow in Hlt. congruence.
Qed.

(** Where [find] succeeds it has found the one position of the key. *)
Lemma find_unique (m : fmap) key i e :
  I1 m -> nth_error (m_data m) i = Some e ->
  equivalent (fst e) key = true -> find key m = i.
Proof.
  intros Hm Hi Heq.
  assert (Hkey : has_key key m).
  { exists e. split; [eapply nth_error_In; eauto|assumption]. }
  assert (Hne : find key m <> end_ m).
  { intros Hend. apply (binary_find_end_iff key Hm) in Hend. contradiction. }
  unfold find, end_, size in *.
  pose proof (binary_find_lt _ _ Hne) as Hlt.
  destruct (nth_error (m_data m) (binary_find (m_data m) key)) as [e'|] eqn:He';
    [|apply nth_error_None in He'; lia].
  pose proof (binary_find_found _ _ Hne He') as Heq'.
  apply (I1_unique_keys Hm _ _ He' Hi).
  rewrite equivalent_sym in Heq.
  eapply equivalent_trans; eauto.
Qed.

Lemma find_is_lower_bound (m : fmap) key :
  find key m <> end_ m -> find key m = lower_bound key m.
Proof.
  unfold find, end_, size, lower_bound, binary_find.
  destruct (nth_error (m_data m) (std_lower_bound (m_data m) key)) as [e|];
    [|congruence].
  destruct (key_compare key (fst e)); congruence.
Qed.

(** X1.  On a container that satisfies I1, [find] returns [end()] exactly
    when no entry has a key equivalent to the requested one; otherwise it
    returns the position [lower_bound] returns, the entry there has an
    equivalent key, and it is the only position with such an entry. *)
Theorem find_designates_the_key (key : K) (m : fmap) :
  I1 m ->
  (find key m = end_ m <-> ~ has_key key m) /\
  (find key m <> end_ m ->
   find key m = lower_bound key m /\
   exists e, nth_error (m_data m) (find key m) = Some e /\
             equivalent (fst e) key = true) /\
  (forall i e, nth_error (m_data m) i = Some e ->
               equivalent (fst e) key = true -> find key m = i).
Proof.
  intros Hm. split; [apply binary_find_end_iff, Hm|]. split.
  - intros Hne. split; [apply find_is_lower_bound, Hne|].
    unfold find, end_, size in *.
    pose proof (binary_find_lt _ _ Hne) as Hlt.
    destruct (nth_error (m_data m) (binary_find (m_data m) key)) as [e|] eqn:He;
      [|apply nth_error_None in He; lia].
    exists e. split; [reflexivity|]. eapply binary_find_found; eauto.
  - intros i e Hi Heq. eapply find_unique; eauto.
Qed.

(** X2.  On a container that satisfies I1, [lower_bound] returns a position
    of the container such that the entries in front of it are exactly those
    whose key is ordered before the requested key. *)
Theorem lower_bound_partitions (key : K) (m : fmap) :
  I1 m ->
  lower_bound key m <= size m /\
  forall i e, nth_error (m_data m) i = Some e ->
              (i < lower_bound key m <-> key_compare (fst e) key = true).
Proof.
  intros Hm. split; [apply std_lower_bound_le|].
  intros i e Hi. apply lower_bound_iff; assumption.
Qed.

(** X3.  On a container that satisfies I1, [upper_bound] returns a position
    of the container such that the entries at and behind it are exactly
    those whose key the requested key is ordered before. *)
Theorem upper_bound_partitions (key : K) (m : fmap) :
  I1 m ->
  upper_bound key m <= size m /\
  forall i e, nth_error (m_data m) i = Some e ->
              (upper_bound key m <= i <-> key_compare key (fst e) = true).
Proof.
  intros Hm. split; [apply std_upper_bound_le|].
  intros i e Hi. pose proof (@upper_bound_iff m key i e Hm Hi) as Hup. split.
  - intros Hge. destruct (key_compare key (fst e)); [reflexivity|].
    assert (i < upper_bound key m) by (apply Hup; reflexivity). lia.
  - intros Hke.
    destruct (Nat.lt_ge_cases i (upper_bound key m)) as [Hlt|Hge];
      [|assumption].
    apply Hup in Hlt. congruence.
Qed.

(** X4.  On a container that satisfies I1, the range [equal_range] returns
    holds exactly the entries with a key equivalent to the requested one: it
    is the single position [find] returns when the key is there and it is
    empty when it is not. *)
Theorem equal_range_is_the_key (key : K) (m : fmap) :
  I1 m ->
  (forall i e, nth_error (m_data m) i = Some e ->
               (fst (equal_range key m) <= i < snd (equal_range key m)
                <-> equivalent (fst e) key = true)) /\
  (has_key key m ->
   fst (equal_range key m) = find key m /\
   snd (equal_range key m) = S (find key m)) /\
  (~ has_key key m -> snd (equal_range key m) = fst (equal_range key m)).
Proof.
  intros Hm.
  change (fst (equal_range key m)) with (lower_bound key m).
  change (snd (equal_range key m)) with (upper_bound key m).
  pose proof (std_lower_bound_le (m_data m) key) as Hlow.
  pose proof (std_upper_bound_le (m_data m) key) as Hup.
  fold (lower_bound key m) in Hlow. fold (upper_bound key m) in Hup.
  assert (Hordered : lower_bound key m <= upper_bound key m).
  { destruct (Nat.lt_ge_cases (upper_bound key m) (lower_bound key m))
      as [Hlt|Hge]; [|assumption].
    destruct (nth_error (m_data m) (upper_bound key m)) as [e|] eqn:He;
      [|apply nth_error_None in He; lia].
    pose proof (proj1 (@lower_bound_iff m key _ e Hm He) Hlt) as Hek.
    pose proof (std_upper_bound_at _ _ He) as Hke.
    rewrite (key_compare_asym _ _ Hek) in Hke. discriminate. }
  split; [intros i e Hi; apply between_bounds_iff; assumption|]. split.
  - intros [e [Hin Heq]]. apply In_nth_error in Hin. destruct Hin as [i Hi].
    pose proof (@find_unique m key i e Hm Hi Heq) as Hfind. rewrite Hfind.
    pose proof (proj2 (@between_bounds_iff m key i e Hm Hi) Heq) as [Hge Hlt].
    assert (Hat : forall j, lower_bound key m <= j < upper_bound key m -> j = i).
    { intros j Hj.
      destruct (nth_error (m_data m) j) as [e'|] eqn:He';
        [|apply nth_error_None in He'; lia].
      rewrite <- Hfind. symmetry. eapply find_unique; eauto.
      apply (@between_bounds_iff m key j e' Hm He'). exact Hj. }
    split.
    + apply Hat. lia.
    + destruct (Nat.eq_dec (upper_bound key m) (S i)) as [Heq'|Hne];
        [assumption|].
      assert (S i = i) by (apply Hat; lia). lia.
  - intros Hno.
    destruct (Nat.eq_dec (upper_bound key m) (lower_bound key m)) as [Heq|Hne];
      [assumption|]. exfalso. apply Hno.
    destruct (nth_error (m_data m) (lower_bound key m)) as [e|] eqn:He;
      [|apply nth_error_None in He; lia].
    exists e. split; [eapply nth_error_In; eauto|].
    apply (@between_bounds_iff m key _ e Hm He). lia.
Qed.

End LookupFacts.

(** ** What the entries are after a mutation *)
Section MutationFacts.

Context {K V : Type} {C : Compare K} {SWO : StrictWeakOrder C}
        {G : GrowthPolicy}.

Local Abbreviation entry := (value_type K V).
Local Abbreviation fmap := (flat_map K V).

Lemma find_app_first (p : entry -> bool) (l1 l2 : list entry) :
  List.find p (l1 ++ l2)
  = match List.find p l1 with
    | Some e => Some e
    | None => List.find p l2
    end.
Proof.
  induction l1 as [|a l1 IH]; simpl; [reflexivity|].
  destruct (p a); [reflexivity|exact IH].
Qed.

Lemma lookup_app (k : K) (l1 l2 : list entry) :
  lookup k (l1 ++ l2)
  = match lookup k l1 with
    | Some e => Some e
    | None => lookup k l2
    end.
Proof. apply find_app_first. Qed.

Lemma has_key_lookup (k : K) (m : fmap) :
  has_key k m <-> lookup k (m_data m) <> None.
Proof.
  unfold has_key, lookup. split.
  - intros [e [Hin Heq]] Hnone.
    rewrite (find_none _ _ Hnone e Hin) in Heq. discriminate.
  - destruct (List.find (fun e => equivalent (fst e) k) (m_data m))
      as [e|] eqn:Hfind; [|intros Hnone; exfalso; apply Hnone; reflexivity].
    intros _. apply find_some in Hfind. exists e. exact Hfind.
Qed.

(** [ordered_insert] looks up like the sequence with the new element at its
    end: the entries that were there come first. *)
Lemma ordered_insert_lookup (k : K) (x : entry) (l : list entry) :
  strictly_ascending value_compare l ->
  lookup k (ordered_insert value_compare x l) = lookup k (l ++ [x]).
Proof.
  unfold strictly_ascending. induction 1 as [|e l Hl IH He].
  - reflexivity.
  - cbn [ordered_insert].
    change (value_compare e x) with (key_compare (fst e) (fst x)).
    change (value_compare x e) with (key_compare (fst x) (fst e)).
    destruct (key_compare (fst e) (fst x)) eqn:Hex.
    + unfold lookup in *. cbn [List.find app].
      destruct (equivalent (fst e) k); [reflexivity|exact IH].
    + destruct (key_compare (fst x) (fst e)) eqn:Hxe.
      * change (x :: e :: l) with ([x] ++ (e :: l)).
        rewrite !lookup_app. unfold lookup at 1. cbn [List.find].
        destruct (equivalent (fst x) k) eqn:Hxk.
        -- assert (Hnone : lookup k (e :: l) = None).
           { unfold lookup.
             destruct (List.find (fun e0 => equivalent (fst e0) k) (e :: l))
               as [z|] eqn:Hfind; [|reflexivity].
             apply find_some in Hfind. destruct Hfind as [Hin Hzk].
             assert (Hxz : key_compare (fst x) (fst z) = true).
             { destruct Hin as [<-|Hin]; [assumption|].
               rewrite Forall_forall in He. specialize (He z Hin).
               unfold value_compare in He. eapply comp_trans; eauto. }
             rewrite equivalent_sym in Hzk.
             pose proof (equivalent_trans _ _ _ Hxk Hzk) as Hxz'.
             apply equivalent_iff in Hxz'. destruct Hxz'. congruence. }
           rewrite Hnone. unfold lookup. cbn [List.find]. rewrite Hxk.
           reflexivity.
        -- destruct (lookup k (e :: l)); [reflexivity|].
           unfold lookup. cbn [List.find]. rewrite Hxk. reflexivity.
      * assert (Hequiv : equivalent (fst x) (fst e) = true).
        { apply equivalent_iff. auto. }
        rewrite lookup_app.
        destruct (lookup k (e :: l)) as [z|] eqn:Hfound; [reflexivity|].
        unfold lookup in *. cbn [List.find] in *.
        rewrite (equivalent_left _ _ k Hequiv).
        destruct (equivalent (fst e) k); [discriminate|reflexivity].
Qed.

Lemma fold_ordered_insert_lookup (k : K) (input : list entry) :
  forall l,
    strictly_ascending value_compare l ->
    lookup k (fold_left (fun acc x => ordered_insert value_compare x acc)
                input l)
    = lookup k (l ++ input).
Proof.
  induction input as [|x input IH]; intros l Hl; cbn [fold_left].
  - rewrite app_nil_r. reflexivity.
  - rewrite IH
      by (apply ordered_insert_strictly_ascending;
          [exact value_compare_trans|exact Hl]).
    rewrite lookup_app, ordered_insert_lookup by exact Hl.
    rewrite <- lookup_app, <- app_assoc. reflexivity.
Qed.

Lemma ordered_insert_length (x : entry) (l : list entry) :
  length l <= length (ordered_insert value_compare x l) <= S (length l).
Proof.
  induction l as [|e l IH]; cbn [ordered_insert length]; [lia|].
  destruct (value_compare e x); [cbn [length]; lia|].
  destruct (value_compare x e); cbn [length]; lia.
Qed.

Lemma vector_emplace_size pos (x : entry) (m : fmap) :
  pos <= size m -> size (vector_emplace pos x m) = S (size m).
Proof.
  unfold size, vector_emplace. cbn [m_data]. intros Hpos.
  rewrite length_app. cbn [length]. rewrite length_firstn, length_skipn. lia.
Qed.

(** The keys after an [emplace]: those that were there and the new one. *)
Lemma emplace_has_key (x : entry) (m : fmap) (k : K) :
  I1 m ->
  (has_key k (fst (emplace x m))
   <-> has_key k m \/ equivalent (fst x) k = true).
Proof.
  intros Hm. rewrite !has_key_lookup, emplace_data.
  rewrite ordered_insert_lookup by (apply I1_strictly_ascending, Hm).
  rewrite lookup_app. unfold lookup at 2. cbn [List.find].
  destruct (lookup k (m_data m)) as [e|].
  - split; [left|]; congruence.
  - destruct (equivalent (fst x) k); split; intros H; try congruence; auto.
    destruct H; congruence.
Qed.

(** X5.  On a container that satisfies I1, [insert(value)] inserts the value
    at the returned position exactly when no entry has an equivalent key and
    then the size grows by one; otherwise the container is unchanged.  The
    keys afterwards are the keys from before and the key of the value. *)
Theorem insert_places_value (value : entry) (m : fmap) :
  I1 m ->
  exists m' it inserted,
    insert value m = (m', (it, inserted)) /\
    (inserted = true <-> ~ has_key (fst value) m) /\
    (inserted = true ->
     m_data m' = firstn it (m_data m) ++ value :: skipn it (m_data m) /\
     size m' = S (size m)) /\
    (inserted = false -> m' = m) /\
    (forall k, has_key k m'
               <-> has_key k m \/ equivalent (fst value) k = true).
Proof.
  intros Hm. unfold insert.
  pose proof (emplace_inserted_iff value Hm) as Hiff.
  pose proof (@emplace_inserted K V C G value m) as Hyes.
  pose proof (@emplace_not_inserted K V C G value m) as Hno.
  pose proof (fun k => @emplace_has_key value m k Hm) as Hkeys.
  destruct (emplace value m) as [m' [it inserted]].
  cbn [fst snd] in *. exists m', it, inserted.
  split; [reflexivity|]. split; [exact Hiff|].
  split; [|split; [exact Hno|exact Hkeys]].
  intros Hinserted. destruct (Hyes Hinserted) as [-> [-> _]].
  split; [reflexivity|]. apply vector_emplace_size, std_lower_bound_le.
Qed.

(** X6.  After [insert(value)] on a container that satisfies I1, [find] and
    [at] with the key of the value return the position [insert] returned;
    the entry there is the value when it was inserted and the entry that was
    already there, untouched, when it was not. *)
Theorem insert_then_lookup (value : entry) (m : fmap) :
  I1 m ->
  find (fst value) (fst (insert value m)) = fst (snd (insert value m)) /\
  at_ (fst value) (fst (insert value m))
  = Returns (fst (snd (insert value m))) (fst (insert value m)) /\
  (~ has_key (fst value) m ->
   nth_error (m_data (fst (insert value m))) (fst (snd (insert value m)))
   = Some value) /\
  (forall e, In e (m_data m) -> equivalent (fst e) (fst value) = true ->
             nth_error (m_data (fst (insert value m)))
               (fst (snd (insert value m)))
             = Some e).
Proof.
  intros Hm. unfold insert.
  pose proof (emplace_I1 value Hm) as Hm'.
  pose proof (emplace_inserted_iff value Hm) as Hiff.
  assert (Hat : exists e,
    nth_error (m_data (fst (emplace value m))) (fst (snd (emplace value m)))
    = Some e /\ equivalent (fst e) (fst value) = true /\
    (snd (snd (emplace value m)) = true -> e = value) /\
    (snd (snd (emplace value m)) = false -> fst (emplace value m) = m)).
  { destruct (snd (snd (emplace value m))) eqn:Hinserted.
    - destruct (emplace_inserted _ _ Hinserted) as [_ [_ Hnth]].
      exists value. repeat split; auto using equivalent_refl. discriminate.
    - destruct (emplace_rejected _ _ Hinserted) as [Hsame [e [Hnth Heq]]].
      exists e. rewrite Hsame. repeat split; auto. discriminate. }
  destruct Hat as [e0 [Hnth [Heq [Hnew Hold]]]].
  assert (Hfind : find (fst value) (fst (emplace value m))
                  = fst (snd (emplace value m)))
    by (eapply find_unique; eauto).
  split; [exact Hfind|]. split; [|split].
  - unfold at_, bind, gets, ret. rewrite Hfind.
    destruct (Nat.eqb_spec (fst (snd (emplace value m)))
                (end_ (fst (emplace value m)))) as [Hend|_]; [|reflexivity].
    assert (fst (snd (emplace value m)) < length (m_data (fst (emplace value m))))
      by (apply nth_error_Some; congruence).
    unfold end_, size in Hend. lia.
  - intros Hno. apply Hiff in Hno. rewrite Hnth, (Hnew Hno). reflexivity.
  - intros e Hin Hequiv.
    assert (Hkey : has_key (fst value) m) by (exists e; auto).
    destruct (snd (snd (emplace value m))) eqn:Hinserted.
    { apply (proj1 Hiff) in Hkey; [contradiction|reflexivity]. }
    rewrite Hnth. f_equal. specialize (Hold eq_refl).
    rewrite Hold in Hnth. apply In_nth_error in Hin. destruct Hin as [j Hj].
    assert (Hsame : fst (snd (emplace value m)) = j).
    { apply (I1_unique_keys Hm _ _ Hnth Hj).
      rewrite (equivalent_sym (fst e)) in Hequiv.
      eapply equivalent_trans; eauto. }
    rewrite Hsame in Hnth. congruence.
Qed.

(** X7.  On a container that satisfies I1, [operator[]] returns the position
    of an entry with a key equivalent to the requested one, which [find]
    returns afterwards too: the container is unchanged when the key was
    there, and the pair of the key and a default value is inserted at that
    position when it was not. *)
Theorem subscript_finds_or_creates `{Default V} (key : K) (m : fmap) :
  I1 m ->
  exists m' pos,
    subscript key m = (m', pos) /\
    (has_key key m -> m' = m) /\
    (~ has_key key m ->
     m_data m'
     = firstn pos (m_data m) ++ (key, default_value) :: skipn pos (m_data m) /\
     nth_error (m_data m') pos = Some (key, default_value)) /\
    (exists e, nth_error (m_data m') pos = Some e /\
               equivalent (fst e) key = true) /\
    find key m' = pos.
Proof.
  intros Hm. rewrite subscript_emplace.
  pose proof (emplace_I1 (key, default_value) Hm) as Hm'.
  pose proof (emplace_inserted_iff (key, default_value) Hm) as Hiff.
  pose proof (@emplace_inserted K V C G (key, default_value) m) as Hyes.
  pose proof (@emplace_rejected K V C G (key, default_value) m) as Hno.
  destruct (emplace (key, default_value) m) as [m' [pos inserted]].
  cbn [fst snd] in *. exists m', pos. split; [reflexivity|].
  assert (Hat : exists e, nth_error (m_data m') pos = Some e /\
                          equivalent (fst e) key = true).
  { destruct inserted.
    - destruct (Hyes eq_refl) as [_ [_ Hnth]].
      exists (key, default_value). auto using equivalent_refl.
    - destruct (Hno eq_refl) as [-> Hex]. exact Hex. }
  split; [|split; [|split; [exact Hat|]]].
  - intros Hkey. destruct inserted.
    + apply (proj1 Hiff) in Hkey; [contradiction|reflexivity].
    + apply Hno. reflexivity.
  - intros Hkey. apply Hiff in Hkey. destruct (Hyes Hkey) as [-> [-> Hnth]].
    split; [reflexivity|exact Hnth].
  - destruct Hat as [e [Hnth Heq]]. eapply find_unique; eauto.
Qed.

End MutationFacts.

(** ** Erasing *)
Section EraseFacts.

Context {K V : Type} {C : Compare K} {SWO : StrictWeakOrder C}
        {G : GrowthPolicy}.

Local Abbreviation entry := (value_type K V).
Local Abbreviation fmap := (flat_map K V).

Lemma vector_erase_nth it (m : fmap) j :
  it < size m ->
  nth_error (m_data (vector_erase it m)) j
  = if j <? it then nth_error (m_data m) j else nth_error (m_data m) (S j).
Proof.
  unfold size, vector_erase, vector_erase_range. cbn [m_data]. intros Hit.
  assert (Hlen : length (firstn it (m_data m)) = it)
    by (rewrite length_firstn; lia).
  destruct (Nat.ltb_spec j it) as [Hlt|Hge].
  - rewrite nth_error_app1 by lia. rewrite nth_error_firstn.
    destruct (Nat.ltb_spec j it); [reflexivity|lia].
  - rewrite nth_error_app2 by lia. rewrite Hlen, nth_error_skipn.
    f_equal. lia.
Qed.

Lemma vector_erase_size it (m : fmap) :
  it < size m -> size (vector_erase it m) + 1 = size m.
Proof.
  unfold size, vector_erase, vector_erase_range. cbn [m_data]. intros Hit.
  rewrite length_app, length_firstn, length_skipn. lia.
Qed.

Lemma vector_erase_range_capacity first last (m : fmap) :
  first <= last <= size m ->
  capacity (vector_erase_range first last m) = capacity m.
Proof.
  unfold capacity, size, vector_erase_range. cbn [m_data m_unused].
  intros Hrange. rewrite length_app, length_firstn, length_skipn. lia.
Qed.

Lemma vector_erase_in it (m : fmap) e :
  it < size m ->
  (In e (m_data (vector_erase it m))
   <-> exists j, j <> it /\ nth_error (m_data m) j = Some e).
Proof.
  intros Hit. split.
  - intros Hin. apply In_nth_error in Hin. destruct Hin as [j Hj].
    rewrite vector_erase_nth in Hj by exact Hit.
    destruct (Nat.ltb_spec j it); [exists j|exists (S j)]; split; auto; lia.
  - intros [j [Hne Hj]].
    destruct (Nat.lt_ge_cases j it) as [Hlt|Hge].
    + apply (nth_error_In _ j). rewrite vector_erase_nth by exact Hit.
      destruct (Nat.ltb_spec j it); [exact Hj|lia].
    + destruct j as [|j]; [lia|].
      apply (nth_error_In _ j). rewrite vector_erase_nth by exact Hit.
      destruct (Nat.ltb_spec j it); [lia|exact Hj].
Qed.

(** X8.  [erase(it)] with an iterator that designates an entry removes that
    entry and no other: the entries in front keep their positions, those
    behind move one position down, so that the returned iterator, [it]
    itself, designates the entry that followed; the size drops by one and
    the capacity stays. *)
Theorem erase_removes_one (it : nat) (m : fmap) :
  it < size m ->
  exists m',
    erase it m = Some (m', it) /\
    size m' + 1 = size m /\
    capacity m' = capacity m /\
    forall j,
      nth_error (m_data m') j
      = if j <? it then nth_error (m_data m) j
        else nth_error (m_data m) (S j).
Proof.
  intros Hit. unfold erase. destruct (Nat.ltb_spec it (size m)); [|lia].
  eexists. split; [reflexivity|]. split; [apply vector_erase_size, Hit|].
  split; [apply vector_erase_range_capacity; lia|].
  intros j. apply vector_erase_nth, Hit.
Qed.

(** X9.  On a container that satisfies I1, [erase(key)] returns 1 and drops
    the size by one when an entry with an equivalent key was there, and
    returns 0 and changes nothing when none was.  Afterwards no entry has an
    equivalent key, every other entry is still there, and the capacity is
    what it was. *)
Theorem erase_key_removes_the_key (key : K) (m : fmap) :
  I1 m ->
  exists m' n,
    erase_key key m = Some (m', n) /\
    (has_key key m -> n = 1 /\ size m' + 1 = size m) /\
    (~ has_key key m -> n = 0 /\ m' = m) /\
    ~ has_key key m' /\
    (forall e, In e (m_data m')
               <-> In e (m_data m) /\ equivalent (fst e) key = false) /\
    capacity m' = capacity m.
Proof.
  intros Hm. pose proof (binary_find_end_iff key Hm) as Hend.
  unfold erase_key, erase.
  destruct (Nat.eqb_spec (find key m) (end_ m)) as [Heq|Hne].
  - pose proof (proj1 Hend Heq) as Hno.
    exists m, 0. split; [reflexivity|].
    split; [intros Hkey; contradiction|]. split; [auto|].
    split; [exact Hno|]. split; [|reflexivity].
    intros e. split; [|tauto]. intros Hin. split; [exact Hin|].
    destruct (equivalent (fst e) key) eqn:Heq'; [|reflexivity].
    exfalso. apply Hno. exists e. auto.
  - assert (Hlt : find key m < size m)
      by (apply binary_find_lt; exact Hne).
    destruct (Nat.ltb_spec (find key m) (size m)); [|lia].
    assert (Hkey : has_key key m).
    { unfold find, end_, size in *.
      destruct (nth_error (m_data m) (binary_find (m_data m) key))
        as [e|] eqn:He; [|apply nth_error_None in He; lia].
      exists e. split; [eapply nth_error_In; eauto|].
      eapply binary_find_found; eauto. }
    exists (vector_erase (find key m) m), 1. split; [reflexivity|].
    split; [intros _; split; [reflexivity|apply vector_erase_size, Hlt]|].
    split; [intros Hno; contradiction|].
    assert (Hothers : forall e,
      In e (m_data (vector_erase (find key m) m))
      <-> In e (m_data m) /\ equivalent (fst e) key = false).
    { intros e. rewrite vector_erase_in by exact Hlt. split.
      - intros [j [Hj Hnth]]. split; [eapply nth_error_In; eauto|].
        destruct (equivalent (fst e) key) eqn:Heq; [|reflexivity].
        exfalso. apply Hj. symmetry. eapply find_unique; eauto.
      - intros [Hin Heq]. apply In_nth_error in Hin. destruct Hin as [j Hj].
        exists j. split; [|exact Hj]. intros ->.
        unfold find, end_, size in *.
        rewrite (binary_find_found _ _ Hne Hj) in Heq. discriminate. }
    split; [|split; [exact Hothers|apply vector_erase_range_capacity; lia]].
    intros [e [Hin Heq]]. apply Hothers in Hin. destruct Hin. congruence.
Qed.

End EraseFacts.

(** ** How the operations compose *)
Section CompositionFacts.

Context {K V : Type} {C : Compare K} {SWO : StrictWeakOrder C}
        {G : GrowthPolicy}.

Local Abbreviation entry := (value_type K V).
Local Abbreviation fmap := (flat_map K V).

Lemma flat_map_ext (m1 m2 : fmap) :
  m_data m1 = m_data m2 -> m_unused m1 = m_unused m2 -> m1 = m2.
Proof. destruct m1, m2. cbn. intros -> ->. reflexivity. Qed.

Lemma firstn_app_exact (l1 l2 : list entry) n :
  n = length l1 -> firstn n (l1 ++ l2) = l1.
Proof.
  intros ->. rewrite firstn_app, firstn_all, Nat.sub_diag, firstn_O.
  apply app_nil_r.
Qed.

Lemma skipn_app_beyond (l1 l2 : list entry) n :
  length l1 <= n -> skipn n (l1 ++ l2) = skipn (n - length l1) l2.
Proof.
  intros Hn. rewrite skipn_app, (skipn_all2 l1) by exact Hn. reflexivity.
Qed.

Lemma erase_times_spec n :
  forall it (m : fmap),
    it + n <= size m ->
    erase_times n it m = Some (vector_erase_range it (it + n) m).
Proof.
  induction n as [|n IH]; intros it m Hrange; cbn [erase_times].
  - f_equal. apply flat_map_ext; cbn [vector_erase_range m_data m_unused].
    + rewrite Nat.add_0_r, firstn_skipn. reflexivity.
    + lia.
  - unfold erase. destruct (Nat.ltb_spec it (size m)); [|lia].
    rewrite IH by (pose proof (@vector_erase_size _ _ it m); lia).
    f_equal. apply flat_map_ext;
      cbn [vector_erase vector_erase_range m_data m_unused]; [|lia].
    assert (Hlen : length (firstn it (m_data m)) = it)
      by (rewrite length_firstn; unfold size in *; lia).
    rewrite firstn_app_exact by (symmetry; exact Hlen).
    rewrite skipn_app_beyond by lia.
    rewrite Hlen, skipn_skipn. do 2 f_equal. lia.
Qed.

(** X10.  [erase(first, last)] on a range of the container does what
    [last - first] calls of [erase(first)] do, entries and capacity alike;
    it takes [last - first] entries away and keeps the capacity.  Erasing
    from [begin()] to [end()] leaves what [clear()] leaves. *)
Theorem erase_range_composes (first last : nat) (m : fmap) :
  first <= last <= size m ->
  (exists m',
      erase_range first last m = Some (m', first) /\
      erase_times (last - first) first m = Some m' /\
      size m' + (last - first) = size m /\
      capacity m' = capacity m) /\
  option_map fst (erase_range (begin_ m) (end_ m) m) = Some (clear m).
Proof.
  intros Hrange. split.
  - exists (vector_erase_range first last m). unfold erase_range.
    destruct (Nat.leb_spec first last); [|lia].
    destruct (Nat.leb_spec last (size m)); [|lia].
    split; [reflexivity|]. split; [|split].
    + rewrite erase_times_spec by lia. do 2 f_equal. lia.
    + unfold size, vector_erase_range in *. cbn [m_data].
      rewrite length_app, length_firstn, length_skipn. lia.
    + unfold capacity, size, vector_erase_range in *. cbn [m_data m_unused].
      rewrite length_app, length_firstn, length_skipn. lia.
  - unfold erase_range, begin_, end_.
    destruct (Nat.leb_spec 0 (size m)); [|lia].
    destruct (Nat.leb_spec (size m) (size m)); [|lia].
    cbn [andb option_map fst]. f_equal.
    apply flat_map_ext; cbn [vector_erase_range clear m_data m_unused].
    + unfold size. rewrite skipn_all. reflexivity.
    + unfold capacity. lia.
Qed.

(** X11.  On a container that satisfies I1, erasing an entry through its
    iterator and inserting the same entry again gives back the container as
    it was, entries and capacity, with the entry at its old position. *)
Theorem erase_then_emplace_restores (it : nat) (e : entry) (m : fmap) :
  I1 m -> nth_error (m_data m) it = Some e ->
  exists m1,
    erase it m = Some (m1, it) /\
    emplace e m1 = (m, (it, true)).
Proof.
  intros Hm He.
  assert (Hit : it < size m) by (apply nth_error_Some; congruence).
  exists (vector_erase it m). unfold erase.
  destruct (Nat.ltb_spec it (size m)); [|lia]. split; [reflexivity|].
  pose proof (proj1 (I1_strictly_ascending m) Hm) as Hsorted.
  rewrite (@emplace_between _ _ _ _ _ e (vector_erase it m) it).
  - f_equal. apply flat_map_ext;
      cbn [vector_emplace vector_erase vector_erase_range m_data m_unused].
    + assert (Hlen : length (firstn it (m_data m)) = it)
        by (rewrite length_firstn; unfold size in *; lia).
      rewrite firstn_app_exact by (symmetry; exact Hlen).
      rewrite skipn_app_beyond by lia.
      rewrite Hlen, Nat.sub_diag, skipn_O.
      apply firstn_skipn_middle, He.
    + replace (m_unused m + (S it - it)) with (S (m_unused m)) by lia.
      reflexivity.
  - apply vector_erase_range_I1; [lia|exact Hm].
  - pose proof (vector_erase_size m Hit). lia.
  - rewrite vector_erase_nth by exact Hit.
    destruct (Nat.ltb_spec it it); [lia|].
    destruct (nth_error (m_data m) (S it)) as [h|] eqn:Hh; [|exact I].
    apply (strictly_ascending_nth Hsorted (Nat.lt_succ_diag_r it) He Hh).
  - destruct it as [|prev]; [exact I|].
    destruct (nth_error (m_data m) prev) as [p|] eqn:Hp;
      [|apply nth_error_None in Hp; unfold size in *; lia].
    exists p. rewrite vector_erase_nth by exact Hit.
    destruct (Nat.ltb_spec prev (S prev)); [|lia]. split; [exact Hp|].
    apply (strictly_ascending_nth Hsorted (Nat.lt_succ_diag_r prev) Hp He).
Qed.

(** X12.  Entries that are handed to [emplace_hint] with the hint [end()]
    in strictly ascending order, all behind the entries of the container,
    are appended one after the other: the container ends up with its old
    entries followed by the new ones. *)
Theorem emplace_hint_at_end_appends (input : list entry) :
  forall (m : fmap),
    strictly_ascending value_compare (m_data m ++ input) ->
    exists m',
      emplace_hint_at_end input m = Some m' /\
      m_data m' = m_data m ++ input.
Proof.
  induction input as [|x input IH]; intros m Hsorted;
    cbn [emplace_hint_at_end].
  - exists m. rewrite app_nil_r. auto.
  - assert (Hm : I1 m).
    { apply I1_strictly_ascending. unfold strictly_ascending in *.
      rewrite <- (app_nil_r (m_data m)).
      apply (@strongly_sorted_drop_middle K V _ (m_data m) (x :: input) []).
      rewrite app_nil_r. exact Hsorted. }
    rewrite emplace_hint_emplace by (auto; unfold end_; lia).
    rewrite (@emplace_between _ _ _ _ _ x m (end_ m)); auto.
    + cbn [fst snd].
      destruct (IH (vector_emplace (end_ m) x m)) as [m' [Hrun Hdata]].
      * cbn [vector_emplace m_data]. unfold end_, size.
        rewrite firstn_all, skipn_all, <- app_assoc. exact Hsorted.
      * exists m'. split; [exact Hrun|]. rewrite Hdata.
        cbn [vector_emplace m_data]. unfold end_, size.
        rewrite firstn_all, skipn_all, <- app_assoc. reflexivity.
    + unfold end_, size. rewrite (proj2 (nth_error_None _ _)) by lia. exact I.
    + unfold end_, size.
      destruct (length (m_data m)) as [|prev] eqn:Hlen; [exact I|].
      destruct (nth_error (m_data m) prev) as [p|] eqn:Hp;
        [|apply nth_error_None in Hp; lia].
      exists p. split; [reflexivity|].
      apply (@strictly_ascending_nth _ _ _ (m_data m ++ x :: input)
               prev (length (m_data m)) p x Hsorted).
      * lia.
      * rewrite nth_error_app1 by lia. exact Hp.
      * rewrite nth_error_app2, Nat.sub_diag by lia. reflexivity.
Qed.

End CompositionFacts.

(** ** What a sequence of single insertions leaves *)
Section SequenceFacts.

Context {K V : Type} {C : Compare K} {SWO : StrictWeakOrder C}
        {G : GrowthPolicy}.

Local Abbreviation entry := (value_type K V).
Local Abbreviation fmap := (flat_map K V).

Lemma emplace_each_lookup (k : K) (m : fmap) (input : list entry) :
  I1 m ->
  lookup k (m_data (emplace_each m input)) = lookup k (m_data m ++ input).
Proof.
  intros Hm. rewrite emplace_each_data.
  apply fold_ordered_insert_lookup, I1_strictly_ascending, Hm.
Qed.

Lemma emplace_each_size (input : list entry) :
  forall (m : fmap),
    size m <= size (emplace_each m input) <= size m + length input.
Proof.
  unfold emplace_each.
  induction input as [|x input IH]; intros m; cbn [fold_left length]; [lia|].
  specialize (IH (fst (emplace x m))).
  pose proof (ordered_insert_length x (m_data m)) as Hstep.
  rewrite <- emplace_data in Hstep. unfold size in *. lia.
Qed.

Lemma lookup_in (x : entry) (l : list entry) :
  In x l -> lookup (fst x) l <> None.
Proof.
  intros Hin Hnone. unfold lookup in Hnone.
  pose proof (find_none _ _ Hnone x Hin) as Hx. cbn in Hx.
  rewrite equivalent_refl in Hx. discriminate.
Qed.

(** Entries whose keys are all there are all rejected. *)
Lemma emplace_each_present (input : list entry) (m : fmap) :
  I1 m -> (forall x, In x input -> has_key (fst x) m) ->
  emplace_each m input = m.
Proof.
  intros Hm. unfold emplace_each.
  induction input as [|x input IH]; intros Hkeys; cbn [fold_left];
    [reflexivity|].
  assert (Hsame : fst (emplace x m) = m).
  { apply emplace_not_inserted.
    destruct (snd (snd (emplace x m))) eqn:Hinserted; [|reflexivity].
    apply (emplace_inserted_iff x Hm) in Hinserted.
    exfalso. apply Hinserted, Hkeys. now left. }
  rewrite Hsame. apply IH. intros y Hy. apply Hkeys. now right.
Qed.

Lemma ordered_insert_last (x : entry) (l : list entry) :
  strictly_ascending value_compare (l ++ [x]) ->
  ordered_insert value_compare x l = l ++ [x].
Proof.
  unfold strictly_ascending.
  induction l as [|e l IH]; cbn [app ordered_insert]; intros Hsorted;
    [reflexivity|].
  apply StronglySorted_inv in Hsorted. destruct Hsorted as [Hl He].
  rewrite Forall_forall in He.
  rewrite (He x) by (apply in_or_app; right; now left).
  f_equal. apply IH, Hl.
Qed.

Lemma fold_ordered_insert_sorted (input : list entry) :
  forall l,
    strictly_ascending value_compare (l ++ input) ->
    fold_left (fun acc x => ordered_insert value_compare x acc) input l
    = l ++ input.
Proof.
  induction input as [|x input IH]; intros l Hsorted; cbn [fold_left].
  - rewrite app_nil_r. reflexivity.
  - assert (Hprefix : strictly_ascending value_compare (l ++ [x])).
    { unfold strictly_ascending in *.
      rewrite <- (app_nil_r (l ++ [x])).
      apply (@strongly_sorted_drop_middle K V _ (l ++ [x]) input []).
      rewrite app_nil_r, <- app_assoc. exact Hsorted. }
    rewrite ordered_insert_last by exact Hprefix.
    rewrite IH by (rewrite <- app_assoc; exact Hsorted).
    rewrite <- app_assoc. reflexivity.
Qed.

(** X13.  After one [emplace] per element of a sequence, in order, into a
    container that satisfies I1, the container satisfies I1 again and the
    entry found for any key is the first entry with an equivalent key in the
    old entries followed by the sequence: an old entry wins over the
    sequence and an earlier element over a later one.  The size grows by at
    most the length of the sequence and never drops. *)
Theorem emplace_each_finds_first (m : fmap) (input : list entry) :
  I1 m ->
  I1 (emplace_each m input) /\
  (forall k,
      lookup k (m_data (emplace_each m input))
      = lookup k (m_data m ++ input)) /\
  size m <= size (emplace_each m input) <= size m + length input.
Proof.
  intros Hm. split; [apply emplace_each_I1, Hm|]. split.
  - intros k. apply emplace_each_lookup, Hm.
  - apply emplace_each_size.
Qed.

(** X14.  Inserting a sequence one element at a time is idempotent on a
    container that satisfies I1: a second round over the same sequence
    changes neither an entry nor the capacity. *)
Theorem emplace_each_idempotent (m : fmap) (input : list entry) :
  I1 m ->
  emplace_each (emplace_each m input) input = emplace_each m input.
Proof.
  intros Hm. apply emplace_each_present; [apply emplace_each_I1, Hm|].
  intros x Hx. apply has_key_lookup.
  rewrite emplace_each_lookup by exact Hm.
  apply lookup_in, in_or_app. now right.
Qed.

End SequenceFacts.

(** ** Capacity *)
Section CapacityFacts.

Context {K V : Type} {C : Compare K} {G : GrowthPolicy}.

Local Abbreviation entry := (value_type K V).
Local Abbreviation fmap := (flat_map K V).

Lemma vector_emplace_capacity pos (x : entry) (m : fmap) :
  pos <= size m ->
  capacity m <= capacity (vector_emplace pos x m) /\
  (m_unused m <> 0 -> capacity (vector_emplace pos x m) = capacity m).
Proof.
  intros Hpos. unfold capacity, size, vector_emplace in *.
  cbn [m_data m_unused].
  rewrite length_app. cbn [length]. rewrite length_firstn, length_skipn.
  destruct (m_unused m); split; try lia.
Qed.

Lemma emplace_capacity (x : entry) (m : fmap) :
  capacity m <= capacity (fst (emplace x m)).
Proof.
  unfold emplace.
  pose proof (@vector_emplace_capacity
                (std_lower_bound (m_data m) (fst x)) x m) as Hgrow.
  assert (Hpos : std_lower_bound (m_data m) (fst x) <= size m).
  { unfold size. clear Hgrow. induction (m_data m) as [|e l IH]; cbn; [lia|].
    destruct (key_compare (fst e) (fst x)); lia. }
  specialize (Hgrow Hpos).
  destruct (nth_error (m_data m) (std_lower_bound (m_data m) (fst x)))
    as [e|]; [destruct (key_compare (fst x) (fst e))|]; cbn [fst]; lia.
Qed.

Lemma emplace_each_capacity (input : list entry) :
  forall (m : fmap), capacity m <= capacity (emplace_each m input).
Proof.
  unfold emplace_each.
  induction input as [|x input IH]; intros m; cbn [fold_left]; [lia|].
  pose proof (emplace_capacity x m). specialize (IH (fst (emplace x m))). lia.
Qed.

(** With a free slot [emplace] does not reallocate and uses up at most
    one slot. *)
Lemma emplace_within_capacity (x : entry) (m : fmap) :
  m_unused m <> 0 ->
  capacity (fst (emplace x m)) = capacity m /\
  m_unused m <= S (m_unused (fst (emplace x m))).
Proof.
  intros Hfree. unfold emplace.
  assert (Hpos : std_lower_bound (m_data m) (fst x) <= size m).
  { unfold size. induction (m_data m) as [|e l IH]; cbn; [lia|].
    destruct (key_compare (fst e) (fst x)); lia. }
  pose proof (proj2 (@vector_emplace_capacity
                       (std_lower_bound (m_data m) (fst x)) x m Hpos) Hfree)
    as Hsame.
  assert (Hslot : m_unused m
                  <= S (m_unused (vector_emplace
                                    (std_lower_bound (m_data m) (fst x)) x m))).
  { unfold vector_emplace. cbn [m_unused]. destruct (m_unused m); lia. }
  destruct (nth_error (m_data m) (std_lower_bound (m_data m) (fst x)))
    as [e|]; [destruct (key_compare (fst x) (fst e))|]; cbn [fst];
    split; try assumption; lia.
Qed.

(** With a free slot for every element, a sequence of [emplace] calls
    never reallocates. *)
Lemma emplace_each_within_capacity (input : list entry) :
  forall (m : fmap),
    length input <= m_unused m ->
    capacity (emplace_each m input) = capacity m.
Proof.
  unfold emplace_each.
  induction input as [|x input IH]; intros m Hroom; cbn [fold_left length] in *;
    [reflexivity|].
  destruct (@emplace_within_capacity x m ltac:(lia)) as [Hsame Hslot].
  rewrite IH by lia. exact Hsame.
Qed.

Lemma emplace_hint_capacity hint (x : entry) (m m' : fmap) it :
  emplace_hint hint x m = Some (m', it) -> capacity m <= capacity m'.
Proof.
  unfold emplace_hint.
  destruct (Nat.ltb_spec (size m) hint) as [|Hhint]; [discriminate|].
  pose proof (emplace_capacity x m) as Hfallback.
  pose proof (proj1 (@vector_emplace_capacity hint x m Hhint)) as Hdirect.
  cbv zeta. destruct (emplace x m) as [m1 [it1 inserted]]. cbn [fst] in *.
  assert (Hbefore : forall r,
    match hint with
    | 0 => Some (vector_emplace hint x m, hint)
    | S prev =>
        match nth_error (m_data m) prev with
        | Some p =>
            if key_compare (fst p) (fst x)
            then Some (vector_emplace hint x m, hint)
            else Some (m1, it1)
        | None => None
        end
    end = Some r -> capacity m <= capacity (fst r)).
  { intros r. destruct hint as [|prev].
    - intros Hr. injection Hr as <-. exact Hdirect.
    - destruct (nth_error (m_data m) prev) as [p|]; [|discriminate].
      destruct (key_compare (fst p) (fst x)); intros Hr;
        injection Hr as <-; assumption. }
  destruct (nth_error (m_data m) hint) as [h|].
  - destruct (key_compare (fst x) (fst h)).
    + intros Hr. apply Hbefore in Hr. exact Hr.
    + destruct (negb (key_compare (fst h) (fst x))); intros Hr;
        injection Hr as <- <-; lia.
  - intros Hr. apply Hbefore in Hr. exact Hr.
Qed.

(** X16.  No public mutation lowers the capacity, and the erasing ones
    ([erase] by iterator, key or range, [clear]) leave it as it is. *)
Theorem capacity_never_shrinks `{Default K} `{Default V}
  (op : mutation K V) (m m' : fmap) :
  run op m = Some m' ->
  capacity m <= capacity m' /\
  match op with
  | Erase _ | EraseKey _ | EraseRange _ _ | Clear => capacity m' = capacity m
  | _ => True
  end.
Proof.
  destruct op; cbn [run].
  - intros Hrun. injection Hrun as <-. split; [|exact I].
    unfold subscript, lower_bound.
    pose proof (emplace_capacity (key, default_value) m) as Hgrow.
    unfold emplace in Hgrow. cbn [fst] in Hgrow.
    destruct (nth_error (m_data m) (std_lower_bound (m_data m) key)) as [e|];
      [destruct (key_compare key (fst e))|]; exact Hgrow.
  - intros Hrun. injection Hrun as <-. split; [apply emplace_capacity|exact I].
  - unfold insert_hint.
    destruct (emplace_hint hint value m) as [[m1 it]|] eqn:Hhint;
      [|discriminate].
    intros Hrun. injection Hrun as <-. split; [|exact I].
    eapply emplace_hint_capacity; eauto.
  - intros Hrun. discriminate Hrun.
  - intros Hrun. injection Hrun as <-. split; [apply emplace_capacity|exact I].
  - intros Hrun. injection Hrun as <-. split; [apply emplace_capacity|exact I].
  - destruct (emplace_hint hint x m) as [[m1 it]|] eqn:Hhint; [|discriminate].
    intros Hrun. injection Hrun as <-. split; [|exact I].
    eapply emplace_hint_capacity; eauto.
  - destruct (emplace_hint hint (default_value, default_value) m)
      as [[m1 it]|] eqn:Hhint; [|discriminate].
    intros Hrun. injection Hrun as <-. split; [|exact I].
    eapply emplace_hint_capacity; eauto.
  - unfold erase. destruct (Nat.ltb_spec it (size m)); [|discriminate].
    intros Hrun. injection Hrun as <-.
    unfold capacity, size, vector_erase, vector_erase_range in *.
    cbn [m_data m_unused].
    rewrite length_app, length_firstn, length_skipn. lia.
  - unfold erase_key, erase.
    destruct (find key m =? end_ m).
    + intros Hrun. injection Hrun as <-. lia.
    + destruct (Nat.ltb_spec (find key m) (size m)); [|discriminate].
      intros Hrun. injection Hrun as <-.
      unfold capacity, size, vector_erase, vector_erase_range in *.
      cbn [m_data m_unused].
      rewrite length_app, length_firstn, length_skipn. lia.
  - unfold erase_range.
    destruct (Nat.leb_spec first last); [|discriminate].
    destruct (Nat.leb_spec last (size m)); [|discriminate].
    intros Hrun. injection Hrun as <-.
    unfold capacity, size, vector_erase_range in *. cbn [m_data m_unused].
    rewrite length_app, length_firstn, length_skipn. lia.
  - intros Hrun. injection Hrun as <-.
    unfold clear. unfold capacity, size. cbn [m_data m_unused length]. lia.
Qed.

(** X17.  [reserve(n)] changes no entry, never lowers the capacity, makes
    it at least [n], and does nothing when the capacity is that large
    already.  After [reserve(size() + n)], inserting [n] elements one at a
    time leaves the capacity as the [reserve] left it: none of the [emplace]
    calls reallocates. *)
Theorem reserve_then_emplace_each `{ReservePolicy}
  (m : fmap) (input : list entry) :
  (forall n,
      m_data (reserve n m) = m_data m /\
      capacity m <= capacity (reserve n m) /\
      n <= capacity (reserve n m) /\
      (n <= capacity m -> reserve n m = m)) /\
  capacity (emplace_each (reserve (size m + length input) m) input)
  = capacity (reserve (size m + length input) m).
Proof.
  assert (Hreserve : forall n,
    m_data (reserve n m) = m_data m /\
    capacity m <= capacity (reserve n m) /\
    n <= capacity (reserve n m) /\
    (n <= capacity m -> reserve n m = m)).
  { intros n. unfold reserve.
    destruct (Nat.leb_spec n (capacity m));
      [repeat split; lia|].
    unfold capacity, size in *. cbn [m_data m_unused]. repeat split; lia. }
  split; [exact Hreserve|].
  destruct (Hreserve (size m + length input)) as [Hdata [_ [Hroom _]]].
  apply emplace_each_within_capacity.
  unfold capacity, size in *. rewrite Hdata in Hroom. lia.
Qed.

End CapacityFacts.

(** ** Comparison of containers *)
Section ComparisonFacts.

Context {K V : Type} {EK : Equal K} {EV : Equal V} {LK : Less K} {LV : Less V}
        {EKL : LawfulEqual EK} {EVL : LawfulEqual EV}
        {LKO : StrictTotalOrder LK} {LVO : StrictTotalOrder LV}.

Local Abbreviation entry := (value_type K V).
Local Abbreviation fmap := (flat_map K V).

Lemma less_asym {A : Type} {L : Less A} {LO : StrictTotalOrder L} (a b : A) :
  less a b = true -> less b a = false.
Proof.
  intros Hab. destruct (less b a) eqn:Hba; [|reflexivity].
  rewrite <- (less_irrefl a). symmetry. eapply less_trans; eauto.
Qed.

Lemma pair_equal_iff (x y : entry) : pair_equal x y = true <-> x = y.
Proof.
  unfold pair_equal. rewrite andb_true_iff, !equal_iff.
  destruct x, y. cbn. split; [intros [-> ->]; reflexivity|].
  intros Heq. injection Heq as -> ->. auto.
Qed.

Lemma vector_equal_iff (l1 l2 : list entry) :
  vector_equal l1 l2 = true <-> l1 = l2.
Proof.
  unfold vector_equal. revert l2.
  induction l1 as [|a l1 IH]; intros [|b l2]; cbn [length std_equal Nat.eqb];
    try (split; [intros H; try discriminate; reflexivity|]; try discriminate;
         reflexivity).
  specialize (IH l2). rewrite andb_true_iff in *.
  rewrite andb_true_iff, pair_equal_iff. split.
  - intros [Hlen [-> Hrest]]. f_equal. apply IH. auto.
  - intros Heq. injection Heq as -> ->.
    destruct (proj2 IH eq_refl) as [Hlen Hrest]. auto.
Qed.

Lemma pair_less_asym (x y : entry) :
  pair_less x y = true -> pair_less y x = false.
Proof.
  unfold pair_less.
  destruct (less (fst x) (fst y)) eqn:Hxy.
  - intros _. rewrite (less_asym _ _ Hxy). reflexivity.
  - cbn [orb negb]. destruct (less (fst y) (fst x)); cbn [negb andb orb];
      [discriminate|].
    intros Hsnd. apply less_asym, Hsnd.
Qed.

Lemma pair_less_total (x y : entry) :
  pair_less x y = false -> pair_less y x = false -> x = y.
Proof.
  unfold pair_less. destruct x as [k1 v1], y as [k2 v2]. cbn [fst snd].
  destruct (less k1 k2) eqn:H12; [discriminate|].
  destruct (less k2 k1) eqn:H21; [discriminate|].
  cbn [orb negb andb]. intros Hv12 Hv21.
  rewrite (less_total _ _ H12 H21), (less_total _ _ Hv12 Hv21). reflexivity.
Qed.

Lemma lexicographical_asym (l1 : list entry) :
  forall l2,
    std_lexicographical_compare l1 l2 = true ->
    std_lexicographical_compare l2 l1 = false.
Proof.
  induction l1 as [|a l1 IH]; intros [|b l2];
    cbn [std_lexicographical_compare]; try discriminate; try reflexivity.
  destruct (pair_less a b) eqn:Hab.
  - intros _. rewrite (pair_less_asym _ _ Hab). reflexivity.
  - destruct (pair_less b a); [discriminate|]. apply IH.
Qed.

Lemma lexicographical_total (l1 : list entry) :
  forall l2,
    std_lexicographical_compare l1 l2 = false ->
    std_lexicographical_compare l2 l1 = false -> l1 = l2.
Proof.
  induction l1 as [|a l1 IH]; intros [|b l2];
    cbn [std_lexicographical_compare]; try discriminate; try reflexivity.
  destruct (pair_less a b) eqn:Hab; [discriminate|].
  destruct (pair_less b a) eqn:Hba; [discriminate|].
  intros H12 H21. rewrite (pair_less_total _ _ Hab Hba). f_equal.
  apply IH; assumption.
Qed.

Lemma lexicographical_irrefl (l : list entry) :
  std_lexicographical_compare l l = false.
Proof.
  destruct (std_lexicographical_compare l l) eqn:Hll; [|reflexivity].
  rewrite <- Hll. apply lexicographical_asym, Hll.
Qed.

(** X18.  For keys and mapped values whose [==] is equality and whose [<] is
    a strict total order: two containers compare equal exactly when they
    hold the same entry sequence, whatever their capacities; of [<], [==]
    and [>] exactly one holds; [<=] is [<] or [==], and [>=] is [>] or
    [==]. *)
Theorem comparisons_are_consistent (m other : fmap) :
  (operator_eq m other = true <-> m_data m = m_data other) /\
  (operator_lt m other = true ->
   operator_gt m other = false /\ operator_eq m other = false) /\
  (operator_gt m other = true ->
   operator_lt m other = false /\ operator_eq m other = false) /\
  (operator_lt m other = false -> operator_gt m other = false ->
   operator_eq m other = true) /\
  operator_le m other = operator_lt m other || operator_eq m other /\
  operator_ge m other = operator_gt m other || operator_eq m other /\
  operator_ne m other = negb (operator_le m other && operator_ge m other).
Proof.
  unfold operator_ne, operator_le, operator_ge, operator_gt, operator_lt,
    operator_eq.
  split; [apply vector_equal_iff|].
  destruct (std_lexicographical_compare (m_data m) (m_data other)) eqn:Hlt,
    (std_lexicographical_compare (m_data other) (m_data m)) eqn:Hgt,
    (vector_equal (m_data m) (m_data other)) eqn:Hsame;
    try (rewrite (lexicographical_asym _ _ Hlt) in Hgt; discriminate);
    try (apply vector_equal_iff in Hsame;
         rewrite Hsame, lexicographical_irrefl in Hlt; discriminate);
    try (apply vector_equal_iff in Hsame;
         rewrite Hsame, lexicographical_irrefl in Hgt; discriminate);
    try (pose proof (lexicographical_total _ _ Hlt Hgt) as Hdata;
         apply vector_equal_iff in Hdata; congruence);
    cbn [negb orb andb]; repeat split; auto; discriminate.
Qed.

End ComparisonFacts.

(** ** Single-element insertion that throws *)
Section EmplaceThrowFacts.

Context {K V : Type} {C : Compare K} {SWO : StrictWeakOrder C}
        {G : GrowthPolicy} {T : CopyConstruct (value_type K V)}.

Local Abbreviation entry := (value_type K V).
Local Abbreviation fmap := (flat_map K V).

(** X19.  On a container that satisfies I1, [emplace] of an element whose
    key is already there never throws and changes nothing, even when
    copying the element would throw; with a new key it throws exactly when
    the copy throws, and the container is then as it was before the call. *)
Theorem emplace_exn_strong_guarantee (x : entry) (m : fmap) :
  I1 m ->
  (has_key (fst x) m ->
   exists it, emplace_exn x m = Returns (it, false) m) /\
  (~ has_key (fst x) m -> copy_throws x = true ->
   emplace_exn x m = Throws _ construction_error m) /\
  (~ has_key (fst x) m -> copy_throws x = false ->
   exists it m',
     emplace_exn x m = Returns (it, true) m' /\
     nth_error (m_data m') it = Some x /\
     m' = fst (emplace x m)).
Proof.
  intros Hm. rewrite emplace_exn_eq.
  pose proof (emplace_inserted_iff x Hm) as Hiff.
  pose proof (@emplace_inserted K V C G x m) as Hyes.
  pose proof (@emplace_not_inserted K V C G x m) as Hno.
  destruct (emplace x m) as [m' [it inserted]]. cbn [fst snd] in *.
  split; [|split].
  - intros Hkey. destruct inserted.
    + apply (proj1 Hiff) in Hkey; [contradiction|reflexivity].
    + rewrite (Hno eq_refl). exists it. reflexivity.
  - intros Hkey Hthrows. apply Hiff in Hkey. subst inserted.
    rewrite Hthrows. reflexivity.
  - intros Hkey Hsafe. apply Hiff in Hkey. subst inserted.
    rewrite Hsafe. destruct (Hyes eq_refl) as [_ [_ Hnth]].
    exists it, m'. auto.
Qed.

End EmplaceThrowFacts.

(** * The instance again *)
Module ExtraExamples.

Import Example ExampleFacts ExampleInterface.

#[export] Instance nat_equal_lawful : LawfulEqual nat_equal.
Proof. intros a b. apply Nat.eqb_eq. Qed.

#[export] Instance nat_lt_total : StrictTotalOrder nat_lt.
Proof.
  split; unfold less, nat_lt.
  - intros a. apply Nat.ltb_irrefl.
  - intros a b c Hab Hbc. apply Nat.ltb_lt in Hab, Hbc. apply Nat.ltb_lt. lia.
  - intros a b Hab Hba. apply Nat.ltb_ge in Hab, Hba. lia.
Qed.

(** The constructor on the input of the round-trip test has no result, and
    a [reserve] spares the insertions that follow it their
    reallocations. *)
Example flat_map_init_list_is_ill_formed :
  @flat_map_init_list nat nat nat_less doubling = IllFormed.
Proof. reflexivity. Qed.

Example reserve_spares_reallocation :
  capacity (emplace_each (reserve 5 fresh) [(3, 30); (1, 10); (2, 20)]) = 5
  /\ capacity (emplace_each fresh [(3, 30); (1, 10); (2, 20)]) = 4.
Proof. split; reflexivity. Qed.

Lemma find_designates_the_key_witness :
  I1 three_entries /\
  ((find 3 three_entries = end_ three_entries <->
   ~ has_key 3 three_entries) /\
  (find 3 three_entries <> end_ three_entries ->
   find 3 three_entries = lower_bound 3 three_entries /\
   exists e : value_type nat nat,
     nth_error (m_data three_entries) (find 3 three_entries) =
     Some e /\ equivalent (fst e) 3 = true) /\
  (forall (i : nat) (e : value_type nat nat),
   nth_error (m_data three_entries) i = Some e ->
   equivalent (fst e) 3 = true -> find 3 three_entries = i)).
Proof.
  assert (Hm : I1 three_entries)
    by (repeat constructor).
  split; [exact Hm|].
  exact (find_designates_the_key 3 Hm).
Defined.

Lemma lower_bound_partitions_witness :
  I1 three_entries /\
  (lower_bound 4 three_entries <= size three_entries /\
  (forall (i : nat) (e : value_type nat nat),
   nth_error (m_data three_entries) i = Some e ->
   i < lower_bound 4 three_entries <-> key_compare (fst e) 4 = true)).
Proof.
  assert (Hm : I1 three_entries)
    by (repeat constructor).
  split; [exact Hm|].
  exact (lower_bound_partitions 4 Hm).
Defined.

Lemma upper_bound_partitions_witness :
  I1 three_entries /\
  (upper_bound 3 three_entries <= size three_entries /\
  (forall (i : nat) (e : value_type nat nat),
   nth_error (m_data three_entries) i = Some e ->
   upper_bound 3 three_entries <= i <-> key_compare 3 (fst e) = true)).
Proof.
  assert (Hm : I1 three_entries)
    by (repeat constructor).
  split; [exact Hm|].
  exact (upper_bound_partitions 3 Hm).
Defined.

Lemma equal_range_is_the_key_witness :
  I1 three_entries /\
  ((forall (i : nat) (e : value_type nat nat),
   nth_error (m_data three_entries) i = Some e ->
   fst (equal_range 3 three_entries) <= i <
   snd (equal_range 3 three_entries) <-> equivalent (fst e) 3 = true) /\
  (has_key 3 three_entries ->
   fst (equal_range 3 three_entries) = find 3 three_entries /\
   snd (equal_range 3 three_entries) =
   S (find 3 three_entries)) /\
  (~ has_key 3 three_entries ->
   snd (equal_range 3 three_entries) =
   fst (equal_range 3 three_entries))).
Proof.
  assert (Hm : I1 three_entries)
    by (repeat constructor).
  split; [exact Hm|].
  exact (equal_range_is_the_key 3 Hm).
Defined.

Lemma insert_places_value_witness :
  I1 three_entries /\
  (exists
    (m' : flat_map nat nat) (it : nat)
  (inserted : bool),
    insert (2, 20) three_entries = (m', (it, inserted)) /\
    (inserted = true <-> ~ has_key (fst (2, 20)) three_entries) /\
    (inserted = true ->
     m_data m' =
     firstn it (m_data three_entries) ++
     (2, 20) :: skipn it (m_data three_entries) /\
     size m' = S (size three_entries)) /\
    (inserted = false -> m' = three_entries) /\
    (forall k : nat,
     has_key k m' <->
     has_key k three_entries \/ equivalent (fst (2, 20)) k = true)).
Proof.
  assert (Hm : I1 three_entries)
    by (repeat constructor).
  split; [exact Hm|].
  exact (insert_places_value (2, 20) Hm).
Defined.

Lemma insert_then_lookup_witness :
  I1 three_entries /\
  (find (fst (2, 20)) (fst (insert (2, 20) three_entries)) =
  fst (snd (insert (2, 20) three_entries)) /\
  at_ (fst (2, 20)) (fst (insert (2, 20) three_entries)) =
  Returns (fst (snd (insert (2, 20) three_entries)))
    (fst (insert (2, 20) three_entries)) /\
  (~ has_key (fst (2, 20)) three_entries ->
   nth_error (m_data (fst (insert (2, 20) three_entries)))
     (fst (snd (insert (2, 20) three_entries))) =
   Some (2, 20)) /\
  (forall e : value_type nat nat,
   In e (m_data three_entries) ->
   equivalent (fst e) (fst (2, 20)) = true ->
   nth_error (m_data (fst (insert (2, 20) three_entries)))
     (fst (snd (insert (2, 20) three_entries))) =
   Some e)).
Proof.
  assert (Hm : I1 three_entries)
    by (repeat constructor).
  split; [exact Hm|].
  exact (insert_then_lookup (2, 20) Hm).
Defined.

Lemma subscript_finds_or_creates_witness :
  I1 three_entries /\
  (exists (m' : flat_map nat nat) (pos : nat),
    subscript 4 three_entries = (m', pos) /\
    (has_key 4 three_entries -> m' = three_entries) /\
    (~ has_key 4 three_entries ->
     m_data m' =
     firstn pos (m_data three_entries) ++
     (4, default_value) :: skipn pos (m_data three_entries) /\
     nth_error (m_data m') pos = Some (4, default_value)) /\
    (exists e : value_type nat nat,
       nth_error (m_data m') pos = Some e /\
       equivalent (fst e) 4 = true) /\
    find 4 m' = pos).
Proof.
  assert (Hm : I1 three_entries)
    by (repeat constructor).
  split; [exact Hm|].
  exact (subscript_finds_or_creates 4 Hm).
Defined.

Lemma erase_removes_one_witness :
  1 < size three_entries /\
  (exists m' : flat_map nat nat,
    erase 1 three_entries = Some (m', 1) /\
    size m' + 1 = size three_entries /\
    capacity m' = capacity three_entries /\
    (forall j : nat,
     nth_error (m_data m') j =
     (if j <? 1
      then nth_error (m_data three_entries) j
      else nth_error (m_data three_entries) (S j)))).
Proof.
  assert (Hit : 1 < size three_entries)
    by (vm_compute; lia).
  split; [exact Hit|].
  exact (erase_removes_one three_entries Hit).
Defined.

Lemma erase_key_removes_the_key_witness :
  I1 three_entries /\
  (exists (m' : flat_map nat nat) (n : nat),
    erase_key 3 three_entries = Some (m', n) /\
    (has_key 3 three_entries ->
     n = 1 /\ size m' + 1 = size three_entries) /\
    (~ has_key 3 three_entries -> n = 0 /\ m' = three_entries) /\
    ~ has_key 3 m' /\
    (forall e : value_type nat nat,
     In e (m_data m') <->
     In e (m_data three_entries) /\ equivalent (fst e) 3 = false) /\
    capacity m' = capacity three_entries).
Proof.
  assert (Hm : I1 three_entries)
    by (repeat constructor).
  split; [exact Hm|].
  exact (erase_key_removes_the_key 3 Hm).
Defined.

Lemma erase_range_composes_witness :
  1 <= 3 <= size three_entries /\
  ((exists m' : flat_map nat nat,
     erase_range 1 3 three_entries = Some (m', 1) /\
     erase_times (3 - 1) 1 three_entries = Some m' /\
     size m' + (3 - 1) = size three_entries /\
     capacity m' = capacity three_entries) /\
  option_map fst
    (erase_range (begin_ three_entries) (end_ three_entries)
       three_entries) =
  Some (clear three_entries)).
Proof.
  assert (Hrange : 1 <= 3 <= size three_entries)
    by (vm_compute; lia).
  split; [exact Hrange|].
  exact (erase_range_composes three_entries Hrange).
Defined.

Lemma erase_then_emplace_restores_witness :
  I1 three_entries /\
  nth_error (m_data three_entries) 1 = Some (3, 30) /\
  (exists m1 : flat_map nat nat,
    erase 1 three_entries = Some (m1, 1) /\
    emplace (3, 30) m1 = (three_entries, (1, true))).
Proof.
  assert (Hm : I1 three_entries)
    by (repeat constructor).
  assert (He : nth_error (m_data three_entries) 1 = Some (3, 30))
    by (reflexivity).
  split; [exact Hm|].
  split; [exact He|].
  exact (erase_then_emplace_restores 1 Hm He).
Defined.

Lemma emplace_hint_at_end_appends_witness :
  strictly_ascending value_compare (m_data three_entries ++ [(7, 70); (9, 90)]) /\
  (exists m' : flat_map nat nat,
    emplace_hint_at_end [(7, 70); (9, 90)] three_entries = Some m' /\
    m_data m' = m_data three_entries ++ [(7, 70); (9, 90)]).
Proof.
  assert (Hsorted : strictly_ascending value_compare (m_data three_entries ++ [(7, 70); (9, 90)]))
    by (repeat constructor).
  split; [exact Hsorted|].
  exact (emplace_hint_at_end_appends [(7, 70); (9, 90)] three_entries Hsorted).
Defined.

Lemma emplace_each_finds_first_witness :
  I1 one_entry /\
  I1 (emplace_each one_entry [(3, 30); (1, 11); (2, 20); (3, 31)]) /\
  (forall k : nat,
      lookup k
        (m_data (emplace_each one_entry [(3, 30); (1, 11); (2, 20); (3, 31)]))
      = lookup k (m_data one_entry ++ [(3, 30); (1, 11); (2, 20); (3, 31)])) /\
  size one_entry
  <= size (emplace_each one_entry [(3, 30); (1, 11); (2, 20); (3, 31)])
  <= size one_entry + length [(3, 30); (1, 11); (2, 20); (3, 31)].
Proof.
  assert (Hm : I1 one_entry) by (repeat constructor).
  split; [exact Hm|].
  exact (emplace_each_finds_first [(3, 30); (1, 11); (2, 20); (3, 31)] Hm).
Defined.

Lemma emplace_each_idempotent_witness :
  I1 one_entry /\
  emplace_each (emplace_each one_entry [(1, 11); (2, 20)]) [(1, 11); (2, 20)]
  = emplace_each one_entry [(1, 11); (2, 20)].
Proof.
  assert (Hm : I1 one_entry) by (repeat constructor).
  split; [exact Hm|].
  exact (emplace_each_idempotent [(1, 11); (2, 20)] Hm).
Defined.

Lemma capacity_never_shrinks_witness :
  run (EraseKey 3) three_entries
  = Some {| m_data := [(1, 10); (5, 50)]; m_unused := 3 |} /\
  capacity three_entries
  <= capacity {| m_data := [(1, 10); (5, 50)]; m_unused := 3 |} /\
  capacity {| m_data := [(1, 10); (5, 50)]; m_unused := 3 |}
  = capacity three_entries.
Proof.
  assert (Hrun : run (EraseKey 3) three_entries
                 = Some {| m_data := [(1, 10); (5, 50)]; m_unused := 3 |})
    by reflexivity.
  split; [exact Hrun|].
  exact (capacity_never_shrinks (EraseKey 3) three_entries Hrun).
Defined.

Lemma reserve_then_emplace_each_witness :
  (forall n,
      m_data (reserve n one_entry) = m_data one_entry /\
      capacity one_entry <= capacity (reserve n one_entry) /\
      n <= capacity (reserve n one_entry) /\
      (n <= capacity one_entry -> reserve n one_entry = one_entry)) /\
  capacity
    (emplace_each
       (reserve (size one_entry + length [(3, 30); (2, 20); (4, 40)])
          one_entry)
       [(3, 30); (2, 20); (4, 40)])
  = capacity
      (reserve (size one_entry + length [(3, 30); (2, 20); (4, 40)])
         one_entry).
Proof.
  exact (reserve_then_emplace_each one_entry [(3, 30); (2, 20); (4, 40)]).
Defined.

Lemma comparisons_are_consistent_witness :
  (operator_eq one_entry three_entries = true <->
   m_data one_entry = m_data three_entries) /\
  (operator_lt one_entry three_entries = true ->
   operator_gt one_entry three_entries = false /\
   operator_eq one_entry three_entries = false) /\
  (operator_gt one_entry three_entries = true ->
   operator_lt one_entry three_entries = false /\
   operator_eq one_entry three_entries = false) /\
  (operator_lt one_entry three_entries = false ->
   operator_gt one_entry three_entries = false ->
   operator_eq one_entry three_entries = true) /\
  operator_le one_entry three_entries =
  (operator_lt one_entry three_entries
   || operator_eq one_entry three_entries)%bool /\
  operator_ge one_entry three_entries =
  (operator_gt one_entry three_entries
   || operator_eq one_entry three_entries)%bool /\
  operator_ne one_entry three_entries =
  negb
    (operator_le one_entry three_entries &&
     operator_ge one_entry three_entries).
Proof.
  exact (@comparisons_are_consistent nat nat nat_equal nat_equal nat_lt nat_lt nat_equal_lawful nat_equal_lawful nat_lt_total nat_lt_total one_entry three_entries).
Defined.

Lemma emplace_exn_strong_guarantee_witness :
  I1 three_entries /\
  ((has_key (fst (2, 666)) three_entries ->
   exists it : nat,
     emplace_exn (2, 666) three_entries =
     Returns (it, false) three_entries) /\
  (~ has_key (fst (2, 666)) three_entries ->
   copy_throws (2, 666) = true ->
   emplace_exn (2, 666) three_entries =
   Throws (nat * bool) construction_error three_entries) /\
  (~ has_key (fst (2, 666)) three_entries ->
   copy_throws (2, 666) = false ->
   exists (it : nat) (m' : flat_map nat nat),
     emplace_exn (2, 666) three_entries = Returns (it, true) m' /\
     nth_error (m_data m') it = Some (2, 666) /\
     m' = fst (emplace (2, 666) three_entries))).
Proof.
  assert (Hm : I1 three_entries)
    by (repeat constructor).
  split; [exact Hm|].
  exact (emplace_exn_strong_guarantee (2, 666) Hm).
Defined.

End ExtraExamples.
